(** * C-To-Python-Agent: the parser core

    A shallow embedding of the three stateful components of
    [c2py-agent/core/parser]:

    - [dependency_mapper.py]  (class [DependencyMapper]),
    - [symbol_table.py]       (classes [Symbol] and [SymbolTable]),
    - [c_preprocessor.py]     (class [CPreprocessor]),

    followed by the properties of these components.

    Conventions.  Python [str] is [string]; text is restricted to ASCII
    characters.  A [dict] keeps its keys in insertion order and is an
    association list.  A [set] that the code iterates over is a
    duplicate-free list (Python fixes no iteration order for a set, so
    statements about such a set never depend on the order of the list); a
    [set] that is only tested for membership is a [gset].  Exceptions and
    logging are explicit: a computation returns an [outcome], and log
    records are collected in a list. *)

From Stdlib Require Import Ascii String.
From stdpp Require Import base list strings gmap.

#[local] Set Warnings "-clear-no-such-hyp".

(** ** Outcomes of a Python call *)

(** The exceptions the modelled code can raise. *)
Inductive exn : Type :=
  | KeyError (key : string)
  | OSError (path : string)
  | UnboundLocalError (var : string)
  | ReError (template : string).

(** A call returns, raises, or is cut off by the recursion bound of the
    model ([OutOfFuel] is not a Python behaviour: the theorems show that it
    does not occur once the bound is large enough). *)
Inductive outcome (A : Type) : Type :=
  | Ok (a : A)
  | Raise (e : exn)
  | OutOfFuel.
Arguments Ok {A} a.
Arguments Raise {A} e.
Arguments OutOfFuel {A}.

(** A record sent to the [logging] module: its level and its message.  A
    message is kept as the format it is built from and the values put in. *)
Inductive level : Type := WARNING | ERROR.

Inductive message : Type :=
  | CircularDependency (file_path : string)
      (* "Circular dependency detected involving {file_path}" *)
  | SymbolExists (name : string)
      (* "Symbol {name} already exists in table" *)
  | IncludeError (include_path : string) (e : exn)
      (* "Error processing include {include_path}: {str(e)}" *)
  | IncludeNotFound (include_path : string)
      (* "Could not find include file: {include_path}" *)
  | FileError (file_path : string) (e : exn).
      (* "Error processing file {file_path}: {str(e)}" *)

Definition log_record : Type := level * message.

(** ** [defaultdict(set)] keyed by strings *)

Module SetDict.

Definition t : Type := list (string * list string).

(** [s.add(v)] *)
Definition set_add (v : string) (s : list string) : list string :=
  if decide (v ∈ s) then s else s ++ [v].

(** [d.get(k)] *)
Fixpoint lookup (d : t) (k : string) : option (list string) :=
  match d with
  | [] => None
  | (k', s) :: d' => if decide (k' = k) then Some s else lookup d' k
  end.

(** [d.get(k, set())] *)
Definition get (d : t) (k : string) : list string :=
  default [] (lookup d k).

(** [d[k].add(v)]: the key is created, at the end, when it is missing. *)
Fixpoint add (d : t) (k v : string) : t :=
  match d with
  | [] => [(k, [v])]
  | (k', s) :: d' =>
      if decide (k' = k) then (k', set_add v s) :: d'
      else (k', s) :: add d' k v
  end.

(** The keys, in iteration order. *)
Definition keys (d : t) : list string := d.*1.

End SetDict.

(** ** [dependency_mapper.py] *)

Record DependencyMapper : Type := {
  dependencies : SetDict.t;
  reverse_dependencies : SetDict.t;
  file_symbols : SetDict.t;
  symbol_files : SetDict.t
}.

(** [DependencyMapper.__init__] *)
Definition new_mapper : DependencyMapper :=
  {| dependencies := []; reverse_dependencies := [];
     file_symbols := []; symbol_files := [] |}.

Section Mapper.

(** [str(Path(p).resolve())]: the canonical absolute form of a path.  It
    depends on the working directory and on the file system, so it is a
    parameter of the model. *)
Variable resolve : string → string.

Definition add_file_dependency (m : DependencyMapper)
    (source_file target_file : string) : DependencyMapper :=
  let source_file := resolve source_file in
  let target_file := resolve target_file in
  if decide (source_file ≠ target_file) then
    {| dependencies := SetDict.add (dependencies m) source_file target_file;
       reverse_dependencies :=
         SetDict.add (reverse_dependencies m) target_file source_file;
       file_symbols := file_symbols m;
       symbol_files := symbol_files m |}
  else m.

Definition add_symbol_definition (m : DependencyMapper)
    (file_path symbol_name : string) : DependencyMapper :=
  let file_path := resolve file_path in
  {| dependencies := dependencies m;
     reverse_dependencies := reverse_dependencies m;
     file_symbols := SetDict.add (file_symbols m) file_path symbol_name;
     symbol_files := SetDict.add (symbol_files m) symbol_name file_path |}.

Definition add_symbol_reference (m : DependencyMapper)
    (file_path symbol_name : string) : DependencyMapper :=
  let file_path := resolve file_path in
  let defining_files := SetDict.get (symbol_files m) symbol_name in
  foldl (λ m def_file, add_file_dependency m file_path def_file)
        m defining_files.

Definition get_file_dependencies (m : DependencyMapper)
    (file_path : string) : list string :=
  SetDict.get (dependencies m) (resolve file_path).

Definition get_file_dependents (m : DependencyMapper)
    (file_path : string) : list string :=
  SetDict.get (reverse_dependencies m) (resolve file_path).

Definition get_file_symbols (m : DependencyMapper)
    (file_path : string) : list string :=
  SetDict.get (file_symbols m) (resolve file_path).

Definition get_symbol_files (m : DependencyMapper)
    (symbol_name : string) : list string :=
  SetDict.get (symbol_files m) symbol_name.

(** The three mutating calls of the public interface. *)
Inductive mapper_op : Type :=
  | AddFileDependency (source_file target_file : string)
  | AddSymbolDefinition (file_path symbol_name : string)
  | AddSymbolReference (file_path symbol_name : string).

Definition apply_op (m : DependencyMapper) (o : mapper_op) : DependencyMapper :=
  match o with
  | AddFileDependency s t => add_file_dependency m s t
  | AddSymbolDefinition f s => add_symbol_definition m f s
  | AddSymbolReference f s => add_symbol_reference m f s
  end.

Definition apply_ops (m : DependencyMapper) (os : list mapper_op) : DependencyMapper :=
  foldl apply_op m os.

End Mapper.

(** *** [get_dependency_order] *)

(** The local variables of [get_dependency_order] that the nested function
    [visit] updates, and the warnings it sends to the logger. *)
Record dfs_state : Type := {
  visited : gset string;
  temp_mark : gset string;
  order : list string;
  warnings : list log_record
}.

(** A [for] loop whose body can raise. *)
Fixpoint for_each {A S : Type} (body : A → S → outcome S)
    (l : list A) (s : S) : outcome S :=
  match l with
  | [] => Ok s
  | x :: l' =>
      match body x s with
      | Ok s' => for_each body l' s'
      | Raise e => Raise e
      | OutOfFuel => OutOfFuel
      end
  end.

Definition circular_warning (file_path : string) : log_record :=
  (WARNING, CircularDependency file_path).

(** The nested function [visit]; [fuel] bounds the depth of the recursion
    (the interpreter's own recursion limit is not part of the model).
    [temp_mark.remove] raises [KeyError] on a missing element. *)
Fixpoint visit (fuel : nat) (deps : SetDict.t) (file_path : string)
    (s : dfs_state) : outcome dfs_state :=
  match fuel with
  | 0 => OutOfFuel
  | S fuel' =>
      if decide (file_path ∈ temp_mark s) then
        Ok {| visited := visited s; temp_mark := temp_mark s; order := order s;
              warnings := warnings s ++ [circular_warning file_path] |}
      else if decide (file_path ∈ visited s) then Ok s
      else
        let s1 := {| visited := visited s;
                     temp_mark := temp_mark s ∪ {[file_path]};
                     order := order s; warnings := warnings s |} in
        match for_each (visit fuel' deps) (SetDict.get deps file_path) s1 with
        | Ok s2 =>
            if decide (file_path ∈ temp_mark s2) then
              Ok {| visited := visited s2 ∪ {[file_path]};
                    temp_mark := temp_mark s2 ∖ {[file_path]};
                    order := order s2 ++ [file_path];
                    warnings := warnings s2 |}
            else Raise (KeyError file_path)
        | Raise e => Raise e
        | OutOfFuel => OutOfFuel
        end
  end.

(** The body of the top-level loop: [if file_path not in visited: visit(file_path)]. *)
Definition visit_unvisited (fuel : nat) (deps : SetDict.t) (file_path : string)
    (s : dfs_state) : outcome dfs_state :=
  if decide (file_path ∉ visited s) then visit fuel deps file_path s else Ok s.

Definition dfs_init : dfs_state :=
  {| visited := ∅; temp_mark := ∅; order := []; warnings := [] |}.

(** [get_dependency_order] returns [order]; the warnings logged on the way
    are returned with it. *)
Definition get_dependency_order (fuel : nat) (m : DependencyMapper)
    : outcome (list string * list log_record) :=
  match for_each (visit_unvisited fuel (dependencies m))
                 (SetDict.keys (dependencies m)) dfs_init with
  | Ok s => Ok (order s, warnings s)
  | Raise e => Raise e
  | OutOfFuel => OutOfFuel
  end.

(** ** [symbol_table.py] *)

(** [Symbol]: [kind] and [scope] are plain strings in the code. *)
Record Symbol : Type := {
  name : string;
  kind : string;        (* 'variable', 'function', 'type', 'struct' *)
  type_info : string;
  scope : string;       (* 'global', 'function', 'block' *)
  references : list string
}.

(** [SymbolTable]: the dictionary [symbols], and what was sent to the logger. *)
Record SymbolTable : Type := {
  symbols : list (string * Symbol);
  table_log : list log_record
}.

Definition new_table : SymbolTable := {| symbols := []; table_log := [] |}.

(** [name in self.symbols] and [self.symbols.get(name)] *)
Fixpoint symbols_get (d : list (string * Symbol)) (n : string) : option Symbol :=
  match d with
  | [] => None
  | (k, v) :: d' => if decide (k = n) then Some v else symbols_get d' n
  end.

(** [self.symbols[name] = symbol] *)
Fixpoint symbols_set (d : list (string * Symbol)) (n : string) (v : Symbol)
    : list (string * Symbol) :=
  match d with
  | [] => [(n, v)]
  | (k, w) :: d' =>
      if decide (k = n) then (k, v) :: d' else (k, w) :: symbols_set d' n v
  end.

Definition add_symbol (t : SymbolTable) (symbol : Symbol) : SymbolTable :=
  match symbols_get (symbols t) (name symbol) with
  | Some _ =>
      {| symbols := symbols t;
         table_log := table_log t ++ [(WARNING, SymbolExists (name symbol))] |}
  | None =>
      {| symbols := symbols_set (symbols t) (name symbol) symbol;
         table_log := table_log t |}
  end.

Definition get_symbol (t : SymbolTable) (n : string) : option Symbol :=
  symbols_get (symbols t) n.

Definition get_all_symbols (t : SymbolTable) : list Symbol := (symbols t).*2.

Definition get_symbols_by_kind (t : SymbolTable) (k : string) : list Symbol :=
  filter (λ s, kind s = k) (symbols t).*2.

Definition get_symbols_by_scope (t : SymbolTable) (sc : string) : list Symbol :=
  filter (λ s, scope s = sc) (symbols t).*2.

(** ** [c_preprocessor.py] *)

(** *** Characters and strings *)

Definition newline : ascii := "010"%char.
Definition backslash : ascii := "092"%char.
Definition double_quote : ascii := "034"%char.

(** [\w] of the [re] module, on ASCII: letters, digits and the underscore. *)
Definition code_between (lo hi : nat) (c : ascii) : bool :=
  Nat.leb lo (nat_of_ascii c) && Nat.leb (nat_of_ascii c) hi.

Definition is_word_char (c : ascii) : bool :=
  code_between 48 57 c || code_between 65 90 c || code_between 97 122 c
  || code_between 95 95 c.

(** [\s] of the [re] module and the characters [str.strip] removes, on
    ASCII: tab, line feed, vertical tab, form feed, carriage return, the
    separators 28 to 31, and the space. *)
Definition is_space_char (c : ascii) : bool :=
  code_between 9 13 c || code_between 28 32 c.

(** [s.startswith(p)] *)
Fixpoint startswith (p s : string) : bool :=
  match p, s with
  | EmptyString, _ => true
  | String a p', String b s' => Ascii.eqb a b && startswith p' s'
  | String _ _, EmptyString => false
  end.

(** The rest of [s] after the prefix [p], when [s] starts with [p]. *)
Fixpoint strip_prefix (p s : string) : option string :=
  match p, s with
  | EmptyString, _ => Some s
  | String a p', String b s' => if decide (a = b) then strip_prefix p' s' else None
  | String _ _, EmptyString => None
  end.

Fixpoint drop_while (f : ascii → bool) (s : string) : string :=
  match s with
  | EmptyString => EmptyString
  | String c s' => if f c then drop_while f s' else s
  end.

Fixpoint take_while (f : ascii → bool) (s : string) : string :=
  match s with
  | EmptyString => EmptyString
  | String c s' => if f c then String c (take_while f s') else EmptyString
  end.

Fixpoint string_take (n : nat) (s : string) : string :=
  match n, s with
  | S n', String c s' => String c (string_take n' s')
  | _, _ => EmptyString
  end.

Fixpoint string_drop (n : nat) (s : string) : string :=
  match n, s with
  | S n', String _ s' => string_drop n' s'
  | _, _ => s
  end.

(** [s.strip()] *)
Definition strip (s : string) : string :=
  String.rev (drop_while is_space_char (String.rev (drop_while is_space_char s))).

(** [s.split('\n')]: never empty. *)
Fixpoint split_lines (s : string) : list string :=
  match s with
  | EmptyString => [EmptyString]
  | String c s' =>
      if decide (c = newline) then EmptyString :: split_lines s'
      else match split_lines s' with
           | l :: ls => String c l :: ls
           | [] => [String c EmptyString]
           end
  end.

(** ['\n'.join(lines)] *)
Fixpoint join_lines (lines : list string) : string :=
  match lines with
  | [] => EmptyString
  | [l] => l
  | l :: ls => l +:+ String newline (join_lines ls)
  end.

(** *** Regular expressions *)

Definition head_char (s : string) : option ascii :=
  match s with
  | EmptyString => None
  | String c _ => Some c
  end.

Fixpoint last_char (prev : option ascii) (s : string) : option ascii :=
  match s with
  | EmptyString => prev
  | String c s' => last_char (Some c) s'
  end.

(** [\b]: exactly one of the characters before and after the position is a
    word character; outside the text there is no word character. *)
Definition word_boundary (before after : option ascii) : bool :=
  xorb (from_option is_word_char false before)
       (from_option is_word_char false after).

(** Does [r'\b' + re.escape(name) + r'\b'] match at the start of [s], a
    position preceded by the character [prev]? *)
Definition word_match (name : string) (prev : option ascii) (s : string) : bool :=
  match strip_prefix name s with
  | Some rest =>
      word_boundary prev (head_char s)
      && word_boundary (last_char prev name) (head_char rest)
  | None => false
  end.

(** [re.sub] with the pattern above and the replacement text [repl], from
    left to right: at a match the replacement is written and the scan goes on
    after the match ([skip] counts the characters of the match still to pass
    over); an empty match is followed by the next character of the text. *)
Fixpoint sub_scan (name repl : string) (prev : option ascii) (skip : nat)
    (s : string) : string :=
  match s with
  | EmptyString =>
      match skip with
      | 0 => if word_match name prev EmptyString then repl else EmptyString
      | S _ => EmptyString
      end
  | String c s' =>
      match skip with
      | S k => sub_scan name repl (Some c) k s'
      | 0 =>
          if word_match name prev s then
            match name with
            | EmptyString => repl +:+ String c (sub_scan name repl (Some c) 0 s')
            | String _ name' =>
                repl +:+ sub_scan name repl (Some c) (String.length name') s'
            end
          else String c (sub_scan name repl (Some c) 0 s')
      end
  end.

(** Does the include pattern, [#include\s*[<Q]([^>Q]+)[>Q]] where Q stands
    for the double quote, match at the start of [s]?  The result is group 1
    and the length of the match. *)
Definition is_include_open (c : ascii) : bool :=
  bool_decide (c = "<"%char) || bool_decide (c = double_quote).

Definition is_include_close (c : ascii) : bool :=
  bool_decide (c = ">"%char) || bool_decide (c = double_quote).

Definition match_include (s : string) : option (string * nat) :=
  match strip_prefix "#include" s with
  | None => None
  | Some r1 =>
      let r2 := drop_while is_space_char r1 in
      match r2 with
      | EmptyString => None
      | String q r3 =>
          if is_include_open q then
            let spec := take_while (λ c, negb (is_include_close c)) r3 in
            match spec, string_drop (String.length spec) r3 with
            | String _ _, String _ _ =>
                Some (spec, 8 + (String.length r1 - String.length r2)
                            + 1 + String.length spec + 1)
            | _, _ => None
            end
          else None
      end
  end.

(** *** The preprocessor and its environment *)

(** What [open] and [Path.exists] find at a path: no file; a file that
    exists and cannot be opened or read; a file with its content; or a path
    that cannot be examined ([stat] fails with an error that [Path.exists]
    does not take for a missing file, as for a name that is too long or a
    directory that may not be searched), for which [exists] and [open] both
    raise [OSError]. *)
Inductive fs_entry : Type :=
  | Missing
  | Unreadable
  | File (content : string)
  | Inaccessible.

Record CPreprocessor : Type := {
  macros : list (string * string);
  include_paths : list string;
  processed_includes : gset string;
  log : list log_record
}.

(** [CPreprocessor.__init__] *)
Definition new_preprocessor : CPreprocessor :=
  {| macros := []; include_paths := []; processed_includes := ∅; log := [] |}.

(** A method call: it returns or raises, and leaves the object in a new
    state either way. *)
Definition M (A : Type) : Type := CPreprocessor → outcome A * CPreprocessor.

Definition ret {A : Type} (a : A) : M A := λ st, (Ok a, st).

Definition bind {A B : Type} (m : M A) (k : A → M B) : M B :=
  λ st, match m st with
        | (Ok a, st') => k a st'
        | (Raise e, st') => (Raise e, st')
        | (OutOfFuel, st') => (OutOfFuel, st')
        end.

Notation "'let*' x ':=' m 'in' k" := (bind m (λ x, k))
  (at level 10, x name, m at level 100, k at level 200).

Definition raise {A : Type} (e : exn) : M A := λ st, (Raise e, st).

Definition out_of_fuel {A : Type} : M A := λ st, (OutOfFuel, st).

(** [try: m except Exception as e: ...]: the exception, if any, is handed
    to the continuation. *)
Definition attempt {A : Type} (m : M A) : M (exn + A) :=
  λ st, match m st with
        | (Ok a, st') => (Ok (inr a), st')
        | (Raise e, st') => (Ok (inl e), st')
        | (OutOfFuel, st') => (OutOfFuel, st')
        end.

Definition get_state : M CPreprocessor := λ st, (Ok st, st).

Definition log_record_add (r : log_record) : M unit :=
  λ st, (Ok tt, {| macros := macros st; include_paths := include_paths st;
                   processed_includes := processed_includes st;
                   log := log st ++ [r] |}).

Definition mark_processed (include_path : string) : M unit :=
  λ st, (Ok tt, {| macros := macros st; include_paths := include_paths st;
                   processed_includes := processed_includes st ∪ {[include_path]};
                   log := log st |}).

Definition add_include_path (path : string) (st : CPreprocessor) : CPreprocessor :=
  if decide (path ∈ include_paths st) then st
  else {| macros := macros st; include_paths := include_paths st ++ [path];
          processed_includes := processed_includes st; log := log st |}.

(** [self.macros[name] = value]: a name defined again keeps its place. *)
Fixpoint macros_set (d : list (string * string)) (n v : string)
    : list (string * string) :=
  match d with
  | [] => [(n, v)]
  | (k, w) :: d' =>
      if decide (k = n) then (k, v) :: d' else (k, w) :: macros_set d' n v
  end.

Definition define_macro (n v : string) (st : CPreprocessor) : CPreprocessor :=
  {| macros := macros_set (macros st) n v; include_paths := include_paths st;
     processed_includes := processed_includes st; log := log st |}.

Definition reset (st : CPreprocessor) : CPreprocessor :=
  {| macros := []; include_paths := []; processed_includes := ∅; log := log st |}.

(** [_process_conditionals]: the loop over the lines, with its two local
    variables. *)
Definition starts_conditional (line : string) : bool :=
  existsb (λ p, startswith p (strip line)) ["#if"; "#ifdef"; "#ifndef"].

Definition is_endif (line : string) : bool := startswith "#endif" (strip line).

Fixpoint conditional_loop (lines processed_lines : list string)
    (skip_until_endif : bool) : list string :=
  match lines with
  | [] => processed_lines
  | line :: lines' =>
      if skip_until_endif then
        if is_endif line then conditional_loop lines' processed_lines false
        else conditional_loop lines' processed_lines true
      else if starts_conditional line then
        conditional_loop lines' processed_lines true
      else conditional_loop lines' (processed_lines ++ [line]) false
  end.

Definition _process_conditionals (source : string) : M string :=
  ret (join_lines (conditional_loop (split_lines source) [] false)).

Section Preprocessor.

(** The file system. *)
Variable fs : string → fs_entry.

(** [str(Path(include_dir) / include_path)] *)
Variable path_join : string → string → string.

(** How [re.sub] reads a replacement text: backslash escapes in it are
    processed.  The result is the text that replaces a match, as a function
    of the matched text, or nothing when [re] rejects the replacement. *)
Variable re_template : string → option (string → string).

(** [re.sub(r'\b' + re.escape(name) + r'\b', value, source)] *)
Definition re_sub_word (macro_name macro_value source : string) : outcome string :=
  match re_template macro_value with
  | Some template => Ok (sub_scan macro_name (template macro_name) None 0 source)
  | None => Raise (ReError macro_value)
  end.

Definition _expand_macros (source : string) : M string :=
  λ st, (for_each (λ '(macro_name, macro_value) source,
                     re_sub_word macro_name macro_value source)
                  (macros st) source, st).

(** [open(path, 'r', encoding='utf-8')] and [f.read()] *)
Definition read_file (path : string) : M string :=
  match fs path with
  | File content => ret content
  | _ => raise (OSError path)
  end.

(** [full_path.exists()] *)
Definition path_exists (path : string) : M bool :=
  match fs path with
  | Missing => ret false
  | Unreadable | File _ => ret true
  | Inaccessible => raise (OSError path)
  end.

(** The loop of [replace_include] over the include directories, and what
    follows the loop.  The call of [exists] stands outside the [try]: an
    exception that it raises leaves the loop and the function. *)
Fixpoint search_include (process_source : string → string → M string)
    (include_path whole_match : string) (dirs : list string) : M string :=
  match dirs with
  | [] =>
      let* _ := log_record_add (WARNING, IncludeNotFound include_path) in
      ret whole_match
  | include_dir :: dirs' =>
      let full_path := path_join include_dir include_path in
      let* found := path_exists full_path in
      if found then
        let* r := attempt (let* included_content := read_file full_path in
                        process_source included_content full_path) in
        match r with
        | inr text => ret text
        | inl e =>
            let* _ := log_record_add (WARNING, IncludeError include_path e) in
            search_include process_source include_path whole_match dirs'
        end
      else search_include process_source include_path whole_match dirs'
  end.

(** The nested function [replace_include], applied to a match whose group 1
    is [include_path] and whose text is [whole_match]. *)
Definition replace_include (process_source : string → string → M string)
    (include_path whole_match : string) : M string :=
  let* st := get_state in
  if decide (include_path ∈ processed_includes st) then ret EmptyString
  else
    let* _ := mark_processed include_path in
    search_include process_source include_path whole_match (include_paths st).

(** [re.sub(include_pattern, replace_include, source)] *)
Fixpoint include_scan (repl : string → string → M string) (skip : nat)
    (s : string) : M string :=
  match s with
  | EmptyString => ret EmptyString
  | String c s' =>
      match skip with
      | S k => include_scan repl k s'
      | 0 =>
          match match_include s with
          | Some (spec, len) =>
              let* r := repl spec (string_take len s) in
              let* rest := include_scan repl (len - 1) s' in
              ret (r +:+ rest)
          | None =>
              let* rest := include_scan repl 0 s' in
              ret (String c rest)
          end
      end
  end.

Definition _process_includes (process_source : string → string → M string)
    (source current_file : string) : M string :=
  include_scan (replace_include process_source) 0 source.

(** [process_source]; [fuel] bounds the depth of nested includes. *)
Fixpoint process_source (fuel : nat) (source current_file : string) : M string :=
  match fuel with
  | 0 => out_of_fuel
  | S fuel' =>
      let* source := _process_includes (process_source fuel') source current_file in
      let* source := _expand_macros source in
      _process_conditionals source
  end.

(** [process_file].  The local variable [source] is bound only once the
    file was read: the handler, which returns [source], finds it unbound
    when [open] or [read] raised. *)
Definition process_file (fuel : nat) (file_path : string) : M string :=
  let* r := attempt (read_file file_path) in
  match r with
  | inr source =>
      let* r := attempt (process_source fuel source file_path) in
      match r with
      | inr text => ret text
      | inl e =>
          let* _ := log_record_add (ERROR, FileError file_path e) in
          ret source
      end
  | inl e =>
      let* _ := log_record_add (ERROR, FileError file_path e) in
      raise (UnboundLocalError "source")
  end.

End Preprocessor.

(** ** [dependency_mapper.py]: [get_strongly_connected_components] *)

(** The local variable [visited] and the set [component] that the nested
    function [dfs] fills. *)
Record scc_state : Type := {
  scc_visited : gset string;
  scc_component : list string
}.

(** The nested function [dfs]; [fuel] bounds the depth of the recursion. *)
Fixpoint dfs (fuel : nat) (deps : SetDict.t) (file_path : string)
    (s : scc_state) : outcome scc_state :=
  match fuel with
  | 0 => OutOfFuel
  | S fuel' =>
      let s1 := {| scc_visited := scc_visited s ∪ {[file_path]};
                   scc_component := SetDict.set_add file_path (scc_component s) |} in
      for_each (λ dep s, if decide (dep ∉ scc_visited s)
                         then dfs fuel' deps dep s else Ok s)
               (SetDict.get deps file_path) s1
  end.

(** The body of the top-level loop: a file that was not visited starts a
    new component, which is appended to [components] when [dfs] is back. *)
Definition scc_root (fuel : nat) (deps : SetDict.t) (file_path : string)
    (st : gset string * list (list string))
    : outcome (gset string * list (list string)) :=
  if decide (file_path ∉ st.1) then
    match dfs fuel deps file_path {| scc_visited := st.1; scc_component := [] |} with
    | Ok s => Ok (scc_visited s, st.2 ++ [scc_component s])
    | Raise e => Raise e
    | OutOfFuel => OutOfFuel
    end
  else Ok st.

Definition get_strongly_connected_components (fuel : nat) (m : DependencyMapper)
    : outcome (list (list string)) :=
  match for_each (scc_root fuel (dependencies m))
                 (SetDict.keys (dependencies m)) (∅, []) with
  | Ok st => Ok st.2
  | Raise e => Raise e
  | OutOfFuel => OutOfFuel
  end.

(** * Vocabulary of the properties *)

(** ** The dependency graph *)

(** [edge g a b]: file [a] depends on file [b]. *)
Definition edge (g : SetDict.t) (a b : string) : Prop := b ∈ SetDict.get g a.

(** Every file that occurs in the graph, as a key or in an edge set. *)
Definition nodes (g : SetDict.t) : list string := SetDict.keys g ++ mjoin g.*2.

(** [is_node g x]: [x] is a key of the graph or the target of an edge. *)
Definition is_node (g : SetDict.t) (x : string) : Prop :=
  x ∈ SetDict.keys g ∨ ∃ a, edge g a x.

Definition acyclic (g : SetDict.t) : Prop := ∀ a, ¬ tc (edge g) a a.

(** [topological g l]: whenever [a] occurs in [l], each file that [a] depends
    on occurs in [l] before that occurrence. *)
Definition topological (g : SetDict.t) (l : list string) : Prop :=
  ∀ l1 a l2, l = l1 ++ a :: l2 → ∀ b, edge g a b → b ∈ l1.

(** [strictly_before b a l]: [b] occurs in [l] at a smaller index than [a]. *)
Definition strictly_before (b a : string) (l : list string) : Prop :=
  ∃ i j, l !! i = Some b ∧ l !! j = Some a ∧ i < j.

(** *** The traversal *)

Definition universe (g : SetDict.t) : gset string := list_to_set (nodes g).

(** The number of files that carry no mark yet: it bounds the depth of the
    recursion that is still to come. *)
Definition unmarked (g : SetDict.t) (s : dfs_state) : nat :=
  size (universe g ∖ (visited s ∪ temp_mark s)).

(** [order] lists the members of [visited], each once. *)
Definition dfs_wf (s : dfs_state) : Prop :=
  (∀ x, x ∈ visited s ↔ x ∈ order s) ∧ NoDup (order s).

(** Each dependency of a visited file is visited or being visited. *)
Definition closed (g : SetDict.t) (s : dfs_state) : Prop :=
  ∀ a b, a ∈ visited s → edge g a b → b ∈ visited s ∨ b ∈ temp_mark s.

(** What a traversal step does to the state: it appends the fresh files
    [ext] to [order] and marks them visited, leaves [temp_mark] as it was,
    and logs [lg]; unless it logs a warning, it keeps [order] topological. *)
Definition extends (g : SetDict.t) (s s' : dfs_state) (ext : list string)
    (lg : list log_record) : Prop :=
  temp_mark s' = temp_mark s ∧
  order s' = order s ++ ext ∧
  visited s' = visited s ∪ list_to_set ext ∧
  warnings s' = warnings s ++ lg ∧
  NoDup ext ∧
  (∀ x, x ∈ ext → (x ∉ visited s) ∧ (x ∉ temp_mark s) ∧ is_node g x) ∧
  (closed g s → closed g s') ∧
  (lg = [] → topological g (order s) → topological g (order s')).

(** Every file that is being visited reaches [n] along edges. *)
Definition ancestors (g : SetDict.t) (s : dfs_state) (n : string) : Prop :=
  ∀ t, t ∈ temp_mark s → tc (edge g) t n.

(** The result of handling [n]: it ends up visited, unless it was being
    visited, in which case there is a warning. *)
Definition handled (s s' : dfs_state) (lg : list log_record) (n : string) : Prop :=
  n ∈ visited s' ∨ (n ∈ temp_mark s ∧ lg ≠ []).

(** What the body of a loop over files does for the file [n], from a state
    with at most [k] unmarked files. *)
Definition body_spec (g : SetDict.t)
    (body : string → dfs_state → outcome dfs_state) (k : nat) (n : string) : Prop :=
  ∀ s, dfs_wf s → unmarked g s ≤ k →
    ∃ s' ext lg, body n s = Ok s' ∧ extends g s s' ext lg ∧
      handled s s' lg n ∧
      (acyclic g → ancestors g s n → lg = []).

(** The recursion bound that suffices for a mapper: one more than the
    number of files in its graph. *)
Definition enough_fuel (m : DependencyMapper) : nat :=
  S (size (universe (dependencies m))).

(** *** The mapper *)

(** The two adjacency mappings are inverse to each other, no file depends
    on itself, and every file of the graph is a canonical path. *)
Definition mapper_inv (resolve : string → string) (m : DependencyMapper) : Prop :=
  (∀ s t, t ∈ SetDict.get (dependencies m) s ↔
          s ∈ SetDict.get (reverse_dependencies m) t) ∧
  (∀ a, a ∉ SetDict.get (dependencies m) a) ∧
  (∀ s t, t ∈ SetDict.get (dependencies m) s → resolve s = s ∧ resolve t = t).

(** A concrete canonical form for examples: every path is already canonical. *)
Definition resolve_canonical (p : string) : string := p.

(** The chain A -> B -> C and the cycle A -> B -> A, built through the
    public interface. *)
Definition chain_mapper : DependencyMapper :=
  add_file_dependency resolve_canonical
    (add_file_dependency resolve_canonical new_mapper "/p/a.c" "/p/b.c")
    "/p/b.c" "/p/c.c".

Definition cycle_mapper : DependencyMapper :=
  add_file_dependency resolve_canonical
    (add_file_dependency resolve_canonical new_mapper "/p/a.c" "/p/b.c")
    "/p/b.c" "/p/a.c".

(** *** The preprocessor *)

(** An identifier: a nonempty string of word characters. *)
Fixpoint all_word (s : string) : bool :=
  match s with
  | EmptyString => true
  | String c s' => is_word_char c && all_word s'
  end.

Definition is_identifier (s : string) : Prop := s ≠ EmptyString ∧ all_word s = true.

Fixpoint backslash_free (s : string) : bool :=
  match s with
  | EmptyString => true
  | String c s' => negb (bool_decide (c = backslash)) && backslash_free s'
  end.


(** The least template reader: it accepts the texts without a backslash. *)
Definition plain_template_only (v : string) : option (string → string) :=
  if backslash_free v then Some (λ _, v) else None.

Definition wordy (o : option ascii) : bool := from_option is_word_char false o.

(** A call never removes an include spec from [processed_includes]. *)
Definition keeps_processed {A : Type} (m : M A) : Prop :=
  ∀ st, processed_includes st ⊆ processed_includes (m st).2.

(** How the scan of [re.sub] cuts a text, from left to right: the
    characters that it copies, and the matches of the include pattern, each
    with its group 1 and its text. *)
Inductive include_token : Type :=
  | Copied (c : ascii)
  | Directive (include_path whole_match : string).

Fixpoint include_tokens (skip : nat) (s : string) : list include_token :=
  match s with
  | EmptyString => []
  | String c s' =>
      match skip with
      | S k => include_tokens k s'
      | 0 =>
          match match_include s with
          | Some (spec, len) =>
              Directive spec (string_take len s) :: include_tokens (len - 1) s'
          | None => Copied c :: include_tokens 0 s'
          end
      end
  end.

(** The text built from the tokens: a copied character stays, a match
    becomes what [repl] returns for it; [repl] is called in the order of the
    text. *)
Fixpoint expand_tokens (repl : string → string → M string)
    (tokens : list include_token) : M string :=
  match tokens with
  | [] => ret EmptyString
  | Copied c :: tokens' =>
      let* rest := expand_tokens repl tokens' in
      ret (String c rest)
  | Directive include_path whole_match :: tokens' =>
      let* r := repl include_path whole_match in
      let* rest := expand_tokens repl tokens' in
      ret (r +:+ rest)
  end.

(** A header that includes itself, included twice by one source text. *)
Definition demo_fs (path : string) : fs_entry :=
  if decide (path = "inc/defs.h")
  then File (join_lines ["int x;"; "#include <defs.h>"])
  else Missing.

Definition demo_join (include_dir include_path : string) : string :=
  include_dir +:+ "/" +:+ include_path.

Definition demo_source : string :=
  join_lines ["#include <defs.h>"; "#include <defs.h>"; "int y;"].

(** *** More vocabulary: the mapper *)

(** The two symbol mappings are inverse to each other. *)
Definition symbol_index_inv (m : DependencyMapper) : Prop :=
  ∀ f s, s ∈ SetDict.get (file_symbols m) f ↔ f ∈ SetDict.get (symbol_files m) s.

(** Every defining file on record is a canonical path. *)
Definition symbols_canonical (resolve : string → string) (m : DependencyMapper) : Prop :=
  ∀ s d, d ∈ SetDict.get (symbol_files m) s → resolve d = d.

(** What [dfs] does to its state: it marks the fresh files [ext] visited
    and appends them to the component. *)
Definition scc_extends (g : SetDict.t) (s s' : scc_state) (ext : list string) : Prop :=
  scc_visited s' = scc_visited s ∪ list_to_set ext ∧
  scc_component s' = scc_component s ++ ext ∧
  NoDup ext ∧
  (∀ x, x ∈ ext → (x ∉ scc_visited s) ∧ is_node g x) ∧
  (∀ a b, a ∈ ext → edge g a b → b ∈ scc_visited s').

(** The state of the top-level loop of [get_strongly_connected_components]:
    the components so far list the visited files, each once; each component
    starts with a key of the graph from which its members are reachable; and
    the visited files are closed under the edges. *)
Definition scc_inv (g : SetDict.t) (st : gset string * list (list string)) : Prop :=
  (∀ x, x ∈ st.1 ↔ x ∈ mjoin st.2) ∧
  NoDup (mjoin st.2) ∧
  (∀ x, x ∈ st.1 → is_node g x) ∧
  (∀ a b, a ∈ st.1 → edge g a b → b ∈ st.1) ∧
  Forall (λ c, ∃ root rest, c = root :: rest ∧ root ∈ SetDict.keys g ∧
                 ∀ x, x ∈ c → rtc (edge g) root x) st.2.

(** *** More vocabulary: the symbol table and the preprocessor *)

(** The table after a sequence of [add_symbol] calls. *)
Definition add_symbols (t : SymbolTable) (syms : list Symbol) : SymbolTable :=
  foldl add_symbol t syms.

(** Every symbol is stored under its own name, and no name occurs twice. *)
Definition table_wf (t : SymbolTable) : Prop :=
  NoDup (symbols t).*1 ∧ Forall (λ kv, name kv.2 = kv.1) (symbols t).

(** What a call may do to the preprocessor: it leaves the macros and the
    include path alone, and only adds to [processed_includes] and to the log. *)
Definition frame (st st' : CPreprocessor) : Prop :=
  macros st' = macros st ∧ include_paths st' = include_paths st ∧
  processed_includes st ⊆ processed_includes st' ∧
  ∃ l, log st' = log st ++ l.

Definition framed {A : Type} (m : M A) : Prop := ∀ st, frame st (m st).2.

(** No [#] in the text. *)
Fixpoint hash_free (s : string) : bool :=
  match s with
  | EmptyString => true
  | String c s' => negb (bool_decide (c = "#"%char)) && hash_free s'
  end.

(** The warnings of a search that finds no readable file: one for each
    directory in which the file exists but cannot be read. *)
Definition unreadable_warnings (fs : string → fs_entry)
    (path_join : string → string → string) (include_path : string)
    (dirs : list string) : list log_record :=
  omap (λ d, match fs (path_join d include_path) with
             | Unreadable =>
                 Some (WARNING, IncludeError include_path
                                  (OSError (path_join d include_path)))
             | _ => None
             end) dirs.

(** The preprocessor with more records in its log, and with one more
    include spec on record. *)
Definition add_log (l : list log_record) (st : CPreprocessor) : CPreprocessor :=
  {| macros := macros st; include_paths := include_paths st;
     processed_includes := processed_includes st; log := log st ++ l |}.

Definition record_include (include_path : string) (st : CPreprocessor) : CPreprocessor :=
  {| macros := macros st; include_paths := include_paths st;
     processed_includes := processed_includes st ∪ {[include_path]};
     log := log st |}.

(** No line feed in the text. *)
Fixpoint newline_free (s : string) : bool :=
  match s with
  | EmptyString => true
  | String c s' => negb (bool_decide (c = newline)) && newline_free s'
  end.

(** The include specs that the scan of [_process_includes] meets in a
    text, in the order of the text. *)
Fixpoint include_specs (skip : nat) (s : string) : list string :=
  match s with
  | EmptyString => []
  | String c s' =>
      match skip with
      | S k => include_specs k s'
      | 0 =>
          match match_include s with
          | Some (spec, len) => spec :: include_specs (len - 1) s'
          | None => include_specs 0 s'
          end
      end
  end.

(** A call that stays within the recursion bound from every state with
    fewer than [k] specs of [known] not yet on record. *)
Definition bounded {A : Type} (known : gset string) (k : nat) (m : M A) : Prop :=
  ∀ st, size (known ∖ processed_includes st) < k → (m st).1 ≠ OutOfFuel.

(** [m'] does what [m] does wherever [m] stays within the recursion bound. *)
Definition refines {A : Type} (m m' : M A) : Prop :=
  ∀ st, (m st).1 ≠ OutOfFuel → m' st = m st.

(** * Properties *)

(** ** The dependency graph *)

Lemma lookup_Some_elem g k s : SetDict.lookup g k = Some s → (k, s) ∈ g.
Proof.
  induction g as [|[k' s'] g IH]; simpl; [done|].
  case_decide; intros Hs.
  - injection Hs as <-. subst. left.
  - right. auto.
Qed.

Lemma edge_source_key g a b : edge g a b → a ∈ SetDict.keys g.
Proof.
  unfold edge, SetDict.get, SetDict.keys. intros H.
  destruct (SetDict.lookup g a) as [s|] eqn:E; simpl in H; [|by apply elem_of_nil in H].
  apply lookup_Some_elem in E. apply list_elem_of_fmap. by exists (a, s).
Qed.

Lemma edge_nodes g a b : edge g a b → a ∈ nodes g ∧ b ∈ nodes g.
Proof.
  intros H. split.
  - apply elem_of_app. left. by eapply edge_source_key.
  - unfold edge, SetDict.get in H.
    destruct (SetDict.lookup g a) as [s|] eqn:E; simpl in H; [|by apply elem_of_nil in H].
    apply lookup_Some_elem in E. apply elem_of_app. right.
    apply list_elem_of_join. exists s. split; [done|].
    apply list_elem_of_fmap. by exists (a, s).
Qed.

Lemma is_node_nodes g x : is_node g x → x ∈ nodes g.
Proof.
  intros [Hx|[a Ha]]; [apply elem_of_app; by left|]. by apply (edge_nodes g a x).
Qed.

Lemma topological_nil g : topological g [].
Proof. intros l1 a l2 H. by destruct l1. Qed.

Lemma topological_snoc g l n :
  topological g l → (∀ b, edge g n b → b ∈ l) → topological g (l ++ [n]).
Proof.
  intros Ht Hn l1 a l2 Heq b Hab.
  destruct l2 as [|x l2 _] using rev_ind.
  - apply app_inj_2 in Heq as [-> [= ->]]; [|done]. by apply Hn.
  - rewrite app_comm_cons, app_assoc in Heq.
    apply app_inj_2 in Heq as [-> _]; [|done]. by eapply Ht.
Qed.

Lemma topological_tc g l a b :
  topological g l → tc (edge g) a b →
  ∀ l1 l2, l = l1 ++ a :: l2 → b ∈ l1.
Proof.
  intros Ht Hab. induction Hab as [a b Hab|a c b Hac Hcb IH]; intros l1 l2 ->.
  - by eapply Ht.
  - assert (c ∈ l1) as Hc by (by eapply Ht).
    apply list_elem_of_split in Hc as (l5 & l6 & ->).
    apply elem_of_app. left. apply (IH l5 (l6 ++ a :: l2)).
    by rewrite <- app_assoc.
Qed.

Lemma topological_acyclic g l a :
  topological g l → a ∈ l → ¬ tc (edge g) a a.
Proof.
  intros Ht Ha Hc.
  apply list_elem_of_split_l in Ha as (l1 & l2 & -> & Hn).
  apply Hn. by eapply topological_tc.
Qed.

Lemma topological_strictly_before g l a b :
  topological g l → a ∈ l → edge g a b → strictly_before b a l.
Proof.
  intros Ht Ha Hab.
  apply list_elem_of_split in Ha as (l1 & l2 & ->).
  assert (b ∈ l1) as Hb by (by eapply Ht).
  apply list_elem_of_lookup in Hb as [i Hi].
  exists i, (length l1). split_and!.
  - by apply lookup_app_l_Some.
  - by rewrite list_lookup_middle.
  - by eapply lookup_lt_Some.
Qed.

(** ** The depth-first traversal of [get_dependency_order] *)

Section Dfs.

Variable g : SetDict.t.

Lemma extends_refl s : extends g s s [] [].
Proof.
  unfold extends. rewrite !app_nil_r. split_and!; try done.
  - set_solver.
  - constructor.
  - intros x Hx. by apply elem_of_nil in Hx.
Qed.

Lemma extends_wf s s' ext lg : dfs_wf s → extends g s s' ext lg → dfs_wf s'.
Proof.
  intros [Hv Hn] (_ & Ho & Hvis & _ & Hne & Hfresh & _). split.
  - intros x. rewrite Hvis, Ho, elem_of_union, elem_of_list_to_set, elem_of_app.
    by rewrite Hv.
  - rewrite Ho. apply NoDup_app. split_and!; [done| |done].
    intros x Hx Hx'. apply Hv in Hx. by apply Hfresh in Hx' as [? _].
Qed.

Lemma extends_unmarked s s' ext lg : extends g s s' ext lg → unmarked g s' ≤ unmarked g s.
Proof.
  intros (Ht & _ & Hvis & _). unfold unmarked. apply subseteq_size.
  rewrite Ht, Hvis. set_solver.
Qed.

Lemma extends_trans s s1 s2 e1 e2 l1 l2 :
  extends g s s1 e1 l1 → extends g s1 s2 e2 l2 → extends g s s2 (e1 ++ e2) (l1 ++ l2).
Proof.
  intros (Ht1 & Ho1 & Hv1 & Hw1 & Hn1 & Hf1 & Hc1 & Htop1)
         (Ht2 & Ho2 & Hv2 & Hw2 & Hn2 & Hf2 & Hc2 & Htop2).
  unfold extends. split_and!.
  - congruence.
  - by rewrite Ho2, Ho1, app_assoc.
  - rewrite Hv2, Hv1. set_solver.
  - by rewrite Hw2, Hw1, app_assoc.
  - apply NoDup_app. split_and!; [done| |done].
    intros x Hx Hx'. apply Hf2 in Hx' as [Hx' _]. apply Hx'. rewrite Hv1. set_solver.
  - intros x [Hx|Hx]%elem_of_app; [by apply Hf1|].
    apply Hf2 in Hx as (Hx1 & Hx2 & Hx3). rewrite Hv1 in Hx1. rewrite Ht1 in Hx2.
    split_and!; [set_solver|done|done].
  - auto.
  - intros [-> ->]%app_eq_nil Htop. auto.
Qed.

Lemma for_each_spec body k l :
  (∀ n, n ∈ l → body_spec g body k n) →
  ∀ s, dfs_wf s → unmarked g s ≤ k →
    ∃ s' ext lg, for_each body l s = Ok s' ∧ extends g s s' ext lg ∧
      (∀ n, n ∈ l → handled s s' lg n) ∧
      (acyclic g → (∀ n, n ∈ l → ancestors g s n) → lg = []).
Proof.
  induction l as [|x l IH]; intros Hbody s Hwf Hk.
  - exists s, [], []. split_and!; [done|apply extends_refl| |done].
    intros n Hn. by apply elem_of_nil in Hn.
  - destruct (Hbody x (list_elem_of_here _ _) s Hwf Hk)
      as (s1 & e1 & l1 & Hx & Hext1 & Hvis1 & Hac1).
    destruct (IH (λ n Hn, Hbody n (list_elem_of_further _ _ _ Hn)) s1)
      as (s2 & e2 & l2 & Hl & Hext2 & Hvis2 & Hac2).
    { by eapply extends_wf. }
    { etrans; [by eapply extends_unmarked|done]. }
    exists s2, (e1 ++ e2), (l1 ++ l2). simpl. rewrite Hx. split_and!.
    + done.
    + by eapply extends_trans.
    + intros n [->|Hn]%elem_of_cons.
      * destruct Hvis1 as [Hv|[Ht Hl1]].
        -- left. destruct Hext2 as (_ & _ & -> & _). set_solver.
        -- right. split; [done|]. intros [-> _]%app_eq_nil. done.
      * destruct (Hvis2 n Hn) as [Hv|[Ht Hl2]]; [by left|].
        right. destruct Hext1 as (<- & _). split; [done|].
        intros [_ ->]%app_eq_nil. done.
    + intros Hacy Hanc. rewrite Hac1, Hac2; [done|done| |done|].
      * intros n Hn t Ht. apply (Hanc n); [by right|].
        destruct Hext1 as (<- & _). done.
      * apply Hanc. left.
Qed.

Lemma visit_spec fuel :
  ∀ k n, k < fuel → is_node g n → body_spec g (visit fuel g) k n.
Proof.
  induction fuel as [|fuel IH]; intros k n Hk Hn s Hwf Hs; [lia|].
  simpl. destruct (decide (n ∈ temp_mark s)) as [Htemp|Htemp];
    [|destruct (decide (n ∈ visited s)) as [Hvis|Hvis]].
  - eexists _, [], [_]. split; [done|]. split; [|split].
    + destruct (extends_refl s) as (? & ? & ? & ? & ? & ? & ? & ?).
      unfold extends; simpl. rewrite !app_nil_r. split_and!; done.
    + right. done.
    + intros Hacy Hanc. destruct (Hacy n). by apply Hanc.
  - exists s, [], []. split; [done|]. split; [apply extends_refl|]. split; [|done].
    by left.
  - set (s1 := {| visited := visited s; temp_mark := temp_mark s ∪ {[n]};
                  order := order s; warnings := warnings s |}).
    assert (dfs_wf s1) as Hwf1 by done.
    assert (unmarked g s1 < unmarked g s) as Hlt.
    { unfold unmarked. apply subset_size. simpl.
      assert (n ∈ (universe g)) by (by apply elem_of_list_to_set, is_node_nodes).
      apply strict_spec_alt. split; [set_solver|].
      intros Heq. assert (n ∈ (universe g) ∖ (visited s ∪ temp_mark s)) as Hin by set_solver.
      rewrite <- Heq in Hin. set_solver. }
    destruct (for_each_spec (visit fuel g) (unmarked g s1) (SetDict.get g n)) with (s := s1)
      as (s2 & e2 & l2 & Hloop & Hext & Hdeps & Hac); [|done|done|].
    { intros d Hd. apply IH; [lia|]. right. by exists n. }
    rewrite Hloop.
    pose proof (extends_wf _ _ _ _ Hwf1 Hext) as [Hv2 Hnd2].
    destruct Hext as (Ht2 & Ho2 & Hvis2 & Hw2 & Hne2 & Hf2 & Hc2 & Htop2). simpl in *.
    rewrite decide_True by (rewrite Ht2; set_solver).
    assert (n ∉ e2) as Hne by (intros Hx; apply Hf2 in Hx; set_solver).
    eexists _, (e2 ++ [n]), l2. split; [done|]. split; [|split].
    + unfold extends; simpl. split_and!.
      * rewrite Ht2. set_solver.
      * by rewrite Ho2, app_assoc.
      * rewrite Hvis2. set_solver.
      * done.
      * apply NoDup_app. split_and!; [done| |apply NoDup_singleton].
        intros x Hx ->%list_elem_of_singleton. done.
      * intros x [Hx | ->%list_elem_of_singleton]%elem_of_app; [|done].
        apply Hf2 in Hx. set_solver.
      * intros Hcl a b [Ha | ->%elem_of_singleton]%elem_of_union Hab.
        -- assert (closed g s1) as Hcl1.
           { intros a' b' Ha' Hab'. destruct (Hcl a' b' Ha' Hab'); simpl; set_solver. }
           destruct (Hc2 Hcl1 a b Ha Hab) as [Hb|Hb]; [set_solver|].
           rewrite Ht2 in Hb. set_solver.
        -- destruct (Hdeps b Hab) as [Hb|[Hb _]]; set_solver.
      * intros -> Htop. apply topological_snoc; [by apply Htop2|].
        intros b Hb. apply Hv2. by destruct (Hdeps b Hb) as [?|[_ ?]].
    + left. simpl. set_solver.
    + intros Hacy Hanc. apply Hac; [done|].
      intros d Hd t [Ht | ->%elem_of_singleton]%elem_of_union.
      * eapply tc_r; [by apply Hanc|done].
      * by apply tc_once.
Qed.

Lemma visit_unvisited_spec fuel k n :
  k < fuel → is_node g n → body_spec g (visit_unvisited fuel g) k n.
Proof.
  intros Hk Hn s Hwf Hs. unfold visit_unvisited.
  destruct (decide (n ∉ visited s)) as [Hv|Hv]; [by apply (visit_spec fuel k n)|].
  exists s, [], []. split; [done|]. split; [apply extends_refl|]. split; [|done].
  left. by apply dec_stable.
Qed.

End Dfs.

(** [get_dependency_order] returns, whatever the graph: its result lists
    the files of the graph, each once; it is topological unless a warning
    was logged; and there is no warning on an acyclic graph. *)
Lemma get_dependency_order_spec (m : DependencyMapper) (fuel : nat) :
  size (universe (dependencies m)) < fuel →
  ∃ ord ws, get_dependency_order fuel m = Ok (ord, ws) ∧
    NoDup ord ∧
    (∀ x, x ∈ ord ↔ is_node (dependencies m) x) ∧
    (ws = [] → topological (dependencies m) ord) ∧
    (acyclic (dependencies m) → ws = []).
Proof.
  intros Hfuel. unfold get_dependency_order. set (g := dependencies m) in *.
  assert (dfs_wf dfs_init) as Hwf.
  { split; [|constructor]. intros x. simpl. set_solver. }
  destruct (for_each_spec g (visit_unvisited fuel g) (size (universe g))
              (SetDict.keys g)) with (s := dfs_init)
    as (s' & ext & lg & -> & Hext & Hall & Hac); [|done| |].
  { intros n Hn. apply visit_unvisited_spec; [done|by left]. }
  { unfold unmarked. apply subseteq_size. set_solver. }
  pose proof (extends_wf _ _ _ _ _ Hwf Hext) as [Hv Hnd].
  destruct Hext as (Ht & Ho & Hvis & Hw & Hne & Hf & Hc & Htop). simpl in *.
  exists (order s'), (warnings s'). split; [done|]. split; [done|]. split; [|split].
  - intros x. split.
    + rewrite Ho. intros Hx. by apply Hf in Hx as (_ & _ & ?).
    + assert (∀ k, k ∈ SetDict.keys g → k ∈ visited s') as Hkeys.
      { intros k Hk. destruct (Hall k Hk) as [?|[Hk' _]]; [done|set_solver]. }
      intros [Hx|[a Ha]]; apply Hv; [by apply Hkeys|].
      destruct (Hc) with (a := a) (b := x) as [?|Hx]; [by intros ???|..|done|].
      * apply Hkeys. by eapply edge_source_key.
      * done.
      * rewrite Ht in Hx. set_solver.
  - rewrite Hw. intros ->. apply Htop; [done|apply topological_nil].
  - rewrite Hw. intros Hacy. apply Hac; [done|]. intros n _ t Ht'. set_solver.
Qed.

(** More fuel never changes a result. *)
Lemma for_each_mono {A S : Type} (f f' : A → S → outcome S) l :
  (∀ x s r, f x s = Ok r → f' x s = Ok r) →
  ∀ s r, for_each f l s = Ok r → for_each f' l s = Ok r.
Proof.
  intros Hf. induction l as [|x l IH]; intros s r; simpl; [done|].
  destruct (f x s) as [s1| |] eqn:E; [|done|done].
  rewrite (Hf _ _ _ E). apply IH.
Qed.

Lemma visit_fuel_mono g fuel :
  ∀ fuel' n s r, fuel ≤ fuel' → visit fuel g n s = Ok r → visit fuel' g n s = Ok r.
Proof.
  induction fuel as [|fuel IH]; intros fuel' n s r Hle; [done|].
  destruct fuel' as [|fuel']; [lia|]. simpl.
  repeat case_decide; try done.
  destruct (for_each (visit fuel g) _ _) as [s2| |] eqn:E; [|done|done].
  erewrite for_each_mono; [done| |exact E].
  intros x s0 r0. apply IH. lia.
Qed.

Lemma get_dependency_order_fuel_mono m fuel fuel' r :
  fuel ≤ fuel' →
  get_dependency_order fuel m = Ok r → get_dependency_order fuel' m = Ok r.
Proof.
  intros Hle. unfold get_dependency_order.
  destruct (for_each (visit_unvisited fuel _) _ _) as [s| |] eqn:E; [|done|done].
  erewrite for_each_mono; [done| |exact E].
  intros x s0 r0. unfold visit_unvisited. case_decide; [|done].
  by apply visit_fuel_mono.
Qed.

(** ** [SetDict]: what [add] does to [get] *)

Lemma elem_of_set_add x v s : x ∈ SetDict.set_add v s ↔ x = v ∨ x ∈ s.
Proof.
  unfold SetDict.set_add. case_decide.
  - split; [by right|]. by intros [->|?].
  - rewrite elem_of_app, list_elem_of_singleton. tauto.
Qed.

Lemma elem_of_get_add d k v k' x :
  x ∈ SetDict.get (SetDict.add d k v) k' ↔
  (k' = k ∧ x = v) ∨ x ∈ SetDict.get d k'.
Proof.
  unfold SetDict.get. induction d as [|[k0 s] d IH]; simpl.
  - case_decide; simpl.
    + rewrite list_elem_of_singleton. subst. split; [by left|]. by intros [[_ ?]|?%elem_of_nil].
    + split; [by intros ?%elem_of_nil|]. intros [[-> _]|?]; done.
  - destruct (decide (k0 = k)) as [->|Hne]; simpl.
    + case_decide; simpl.
      * subst. rewrite elem_of_set_add. naive_solver.
      * naive_solver.
    + case_decide; simpl; [|done].
      subst. naive_solver.
Qed.

Lemma get_nil k : SetDict.get [] k = [].
Proof. done. Qed.

(** ** The invariant of the dependency graph *)

Section MapperProperties.

Variable resolve : string → string.

(** Resolving a canonical path gives the same path. *)
Hypothesis resolve_idem : ∀ p, resolve (resolve p) = resolve p.

Lemma new_mapper_inv : mapper_inv resolve new_mapper.
Proof.
  unfold mapper_inv, new_mapper; simpl. split_and!.
  - intros s t. rewrite !get_nil. split; by intros ?%elem_of_nil.
  - intros a ?%elem_of_nil. done.
  - intros s t ?%elem_of_nil. done.
Qed.

Lemma add_file_dependency_inv m a b :
  mapper_inv resolve m → mapper_inv resolve (add_file_dependency resolve m a b).
Proof.
  intros (Hsym & Hirr & Hcan). unfold add_file_dependency.
  case_decide as Hne; [|done]. unfold mapper_inv; simpl. split_and!.
  - intros s t. rewrite !elem_of_get_add, Hsym. naive_solver.
  - intros x. rewrite elem_of_get_add. intros [[Hx1 Hx2]|Hx]; [congruence|by eapply Hirr].
  - intros s t. rewrite elem_of_get_add. intros [[-> ->]|Hx]; [|by apply Hcan].
    by rewrite !resolve_idem.
Qed.

Lemma add_symbol_definition_inv m f s :
  mapper_inv resolve m → mapper_inv resolve (add_symbol_definition resolve m f s).
Proof. done. Qed.

Lemma add_symbol_reference_inv m f s :
  mapper_inv resolve m → mapper_inv resolve (add_symbol_reference resolve m f s).
Proof.
  unfold add_symbol_reference.
  generalize (SetDict.get (symbol_files m) s). intros l. revert m.
  induction l as [|d l IH]; intros m Hm; simpl; [done|].
  apply IH. by apply add_file_dependency_inv.
Qed.

Lemma apply_ops_inv m ops :
  mapper_inv resolve m → mapper_inv resolve (apply_ops resolve m ops).
Proof.
  revert m. induction ops as [|o ops IH]; intros m Hm; simpl; [done|].
  apply IH. destruct o; simpl.
  - by apply add_file_dependency_inv.
  - by apply add_symbol_definition_inv.
  - by apply add_symbol_reference_inv.
Qed.

(** Edges and symbol definitions are never removed. *)
Lemma add_file_dependency_mono m a b k x :
  x ∈ SetDict.get (dependencies m) k →
  x ∈ SetDict.get (dependencies (add_file_dependency resolve m a b)) k.
Proof.
  intros Hx. unfold add_file_dependency. case_decide; [|done]. simpl.
  apply elem_of_get_add. by right.
Qed.

Lemma add_file_dependency_symbol_files m a b :
  symbol_files (add_file_dependency resolve m a b) = symbol_files m.
Proof. unfold add_file_dependency. by case_decide. Qed.

Lemma add_dependencies_mono m src l k x :
  x ∈ SetDict.get (dependencies m) k →
  x ∈ SetDict.get (dependencies
        (foldl (λ m d, add_file_dependency resolve m src d) m l)) k.
Proof.
  revert m. induction l as [|d l IH]; intros m Hx; simpl; [done|].
  apply IH. by apply add_file_dependency_mono.
Qed.

Lemma add_dependencies_symbol_files m src l :
  symbol_files (foldl (λ m d, add_file_dependency resolve m src d) m l)
  = symbol_files m.
Proof.
  revert m. induction l as [|d l IH]; intros m; simpl; [done|].
  by rewrite IH, add_file_dependency_symbol_files.
Qed.

Lemma apply_op_symbol_files m o s f :
  f ∈ SetDict.get (symbol_files m) s →
  f ∈ SetDict.get (symbol_files (apply_op resolve m o)) s.
Proof.
  intros Hf. destruct o; simpl.
  - by rewrite add_file_dependency_symbol_files.
  - apply elem_of_get_add. by right.
  - unfold add_symbol_reference. by rewrite add_dependencies_symbol_files.
Qed.

Lemma apply_ops_symbol_files m ops s f :
  f ∈ SetDict.get (symbol_files m) s →
  f ∈ SetDict.get (symbol_files (apply_ops resolve m ops)) s.
Proof.
  revert m. induction ops as [|o ops IH]; intros m Hf; simpl; [done|].
  apply IH. by apply apply_op_symbol_files.
Qed.

(** A reference adds the edge to each defining file other than the
    referencing file itself. *)
Lemma add_dependencies_adds m src l d :
  d ∈ l → resolve src ≠ resolve d →
  resolve d ∈ SetDict.get (dependencies
        (foldl (λ m d, add_file_dependency resolve m src d) m l)) (resolve src).
Proof.
  revert m. induction l as [|d' l IH]; intros m Hd Hne; [by apply elem_of_nil in Hd|].
  simpl. apply elem_of_cons in Hd as [->|Hd]; [|by apply IH].
  apply add_dependencies_mono. unfold add_file_dependency.
  rewrite decide_True by done. simpl. apply elem_of_get_add. by left.
Qed.

End MapperProperties.

Lemma acyclic_by_rank g (rank : string → nat) :
  (∀ a b, edge g a b → rank b < rank a) → acyclic g.
Proof.
  intros Hr a Ha.
  assert (∀ x y, tc (edge g) x y → rank y < rank x) as Htc.
  { intros x y Hxy. induction Hxy as [x y Hxy|x y z Hxy _ IH]; [by apply Hr|].
    apply Hr in Hxy. lia. }
  apply Htc in Ha. lia.
Qed.

Lemma chain_mapper_acyclic : acyclic (dependencies chain_mapper).
Proof.
  apply (acyclic_by_rank _
    (λ x, if decide (x = "/p/a.c") then 2
          else if decide (x = "/p/b.c") then 1 else 0)).
  intros a b. unfold edge, SetDict.get. vm_compute dependencies. simpl.
  repeat (case_decide; simpl); subst;
    rewrite ?list_elem_of_singleton; try (intros ->); try (by intros ?%elem_of_nil);
    repeat case_decide; try done; lia.
Qed.

(** C2.  On an acyclic graph [get_dependency_order] returns (for every
    sufficient recursion bound, the same list, without any warning) an order
    without repetition in which each file occurs strictly after every file it
    depends on.  In
    particular, when the graph was obtained by [add_file_dependency A B] and
    then [add_file_dependency B C] for distinct files, C occurs before B and
    B before A. *)
Theorem dependency_order_topological (resolve : string → string)
    (m : DependencyMapper) :
  acyclic (dependencies m) →
  ∃ ord,
    (∀ fuel, enough_fuel m ≤ fuel → get_dependency_order fuel m = Ok (ord, [])) ∧
    NoDup ord ∧
    (∀ a b, b ∈ SetDict.get (dependencies m) a → strictly_before b a ord) ∧
    (∀ m0 A B C,
       m = add_file_dependency resolve (add_file_dependency resolve m0 A B) B C →
       resolve A ≠ resolve B → resolve B ≠ resolve C →
       strictly_before (resolve C) (resolve B) ord ∧
       strictly_before (resolve B) (resolve A) ord).
Proof.
  intros Hacy.
  destruct (get_dependency_order_spec m (enough_fuel m))
    as (ord & ws & Hrun & Hnd & Hmem & Htop & Hws); [unfold enough_fuel; lia|].
  specialize (Hws Hacy). subst ws. specialize (Htop eq_refl).
  assert (∀ a b, b ∈ SetDict.get (dependencies m) a → strictly_before b a ord) as Hsb.
  { intros a b Hab. apply (topological_strictly_before (dependencies m)); [done| |done].
    apply Hmem. left. by apply (edge_source_key _ a b). }
  exists ord. split_and!; [|done|done|].
  - intros fuel Hfuel. by apply (get_dependency_order_fuel_mono m (enough_fuel m)).
  - intros m0 A B C -> HAB HBC. split; apply Hsb.
    + unfold add_file_dependency at 1. rewrite decide_True by done. simpl.
      apply elem_of_get_add. by left.
    + apply add_file_dependency_mono. unfold add_file_dependency.
      rewrite decide_True by done. simpl. apply elem_of_get_add. by left.
Qed.

Lemma dependency_order_topological_witness :
  ∃ ord,
    (∀ fuel, enough_fuel chain_mapper ≤ fuel →
       get_dependency_order fuel chain_mapper = Ok (ord, [])) ∧
    NoDup ord ∧
    (∀ a b, b ∈ SetDict.get (dependencies chain_mapper) a → strictly_before b a ord) ∧
    (∀ m0 A B C,
       chain_mapper = add_file_dependency resolve_canonical
                        (add_file_dependency resolve_canonical m0 A B) B C →
       resolve_canonical A ≠ resolve_canonical B →
       resolve_canonical B ≠ resolve_canonical C →
       strictly_before (resolve_canonical C) (resolve_canonical B) ord ∧
       strictly_before (resolve_canonical B) (resolve_canonical A) ord).
Proof.
  apply (dependency_order_topological resolve_canonical chain_mapper).
  exact chain_mapper_acyclic.
Defined.

(** The chain, run: C, then B, then A, and no warning. *)
Example chain_mapper_order :
  get_dependency_order 4 chain_mapper = Ok (["/p/c.c"; "/p/b.c"; "/p/a.c"], []).
Proof. vm_compute. reflexivity. Qed.

(** C3.  On every graph, cyclic or not, [get_dependency_order] returns
    normally (for every sufficient recursion bound, the same result): no
    exception and no unbounded recursion.  The result lists the files of the
    graph, each exactly once.  A warning is logged when the graph has a
    cycle, and only then; in particular on a graph obtained by
    [add_file_dependency A B] and then [add_file_dependency B A]. *)
Theorem dependency_order_total (resolve : string → string)
    (m : DependencyMapper) :
  ∃ ord ws,
    (∀ fuel, enough_fuel m ≤ fuel → get_dependency_order fuel m = Ok (ord, ws)) ∧
    NoDup ord ∧
    (∀ x, x ∈ ord ↔ is_node (dependencies m) x) ∧
    (ws ≠ [] ↔ ¬ acyclic (dependencies m)) ∧
    (∀ m0 A B,
       m = add_file_dependency resolve (add_file_dependency resolve m0 A B) B A →
       resolve A ≠ resolve B →
       ws ≠ [] ∧ resolve A ∈ ord ∧ resolve B ∈ ord).
Proof.
  destruct (get_dependency_order_spec m (enough_fuel m))
    as (ord & ws & Hrun & Hnd & Hmem & Htop & Hws); [unfold enough_fuel; lia|].
  assert (ws ≠ [] ↔ ¬ acyclic (dependencies m)) as Hcyc.
  { split; [intros Hne Hacy; by apply Hne, Hws|].
    intros Hn ->. apply Hn. intros a Ha.
    apply (topological_acyclic (dependencies m) ord a); [by apply Htop| |done].
    apply Hmem. left. inversion Ha; subst; by eapply edge_source_key. }
  exists ord, ws. split_and!; [|done|done|done|].
  - intros fuel Hfuel. by apply (get_dependency_order_fuel_mono m (enough_fuel m)).
  - intros m0 A B -> HAB.
    assert (edge (dependencies (add_file_dependency resolve
              (add_file_dependency resolve m0 A B) B A)) (resolve A) (resolve B)) as E1.
    { apply add_file_dependency_mono. unfold add_file_dependency.
      rewrite decide_True by done. simpl. apply elem_of_get_add. by left. }
    assert (edge (dependencies (add_file_dependency resolve
              (add_file_dependency resolve m0 A B) B A)) (resolve B) (resolve A)) as E2.
    { unfold add_file_dependency at 1. rewrite decide_True by done. simpl.
      apply elem_of_get_add. by left. }
    split_and!.
    + apply Hcyc. intros Hacy. apply (Hacy (resolve A)).
      eapply tc_l; [exact E1|]. by apply tc_once.
    + apply Hmem. right. by exists (resolve B).
    + apply Hmem. right. by exists (resolve A).
Qed.

(** The cycle, run: both files once, and one warning. *)
Example cycle_mapper_order :
  get_dependency_order 3 cycle_mapper =
  Ok (["/p/b.c"; "/p/a.c"], [circular_warning "/p/a.c"]).
Proof. vm_compute. reflexivity. Qed.

(** C4.  Starting from a mapper that satisfies the graph invariant (a new
    mapper does), every sequence of [add_file_dependency],
    [add_symbol_definition] and [add_symbol_reference] calls leads to a mapper
    in which [t] is in [dependencies[s]] exactly when [s] is in
    [reverse_dependencies[t]], and in which no file depends on itself:
    [get_file_dependencies a] contains neither [a] nor its canonical form.
    [add_file_dependency a a] changes nothing. *)
Theorem graph_invariant_preserved (resolve : string → string)
    (m : DependencyMapper) (ops : list mapper_op) :
  (∀ p, resolve (resolve p) = resolve p) →
  mapper_inv resolve m →
  let m' := apply_ops resolve m ops in
  mapper_inv resolve new_mapper ∧
  (∀ s t, t ∈ SetDict.get (dependencies m') s ↔
          s ∈ SetDict.get (reverse_dependencies m') t) ∧
  (∀ a, (a ∉ get_file_dependencies resolve m' a) ∧
        (resolve a ∉ get_file_dependencies resolve m' a)) ∧
  (∀ a, add_file_dependency resolve m' a a = m').
Proof.
  intros Hidem Hm m'.
  destruct (apply_ops_inv resolve Hidem m ops Hm) as (Hsym & Hirr & Hcan).
  fold m' in Hsym, Hirr, Hcan. split_and!.
  - apply new_mapper_inv.
  - done.
  - intros a. unfold get_file_dependencies. split; [|apply Hirr].
    intros Ha. destruct (Hcan _ _ Ha) as [_ Hra]. rewrite Hra in Ha. by eapply Hirr.
  - intros a. unfold add_file_dependency. by rewrite decide_False by (intros Hne; by apply Hne).
Qed.

Lemma graph_invariant_preserved_witness :
  let m' := apply_ops resolve_canonical new_mapper
              [AddSymbolDefinition "/p/b.c" "f"; AddFileDependency "/p/a.c" "/p/a.c";
               AddSymbolReference "/p/a.c" "f"; AddSymbolReference "/p/b.c" "f"] in
  mapper_inv resolve_canonical new_mapper ∧
  (∀ s t, t ∈ SetDict.get (dependencies m') s ↔
          s ∈ SetDict.get (reverse_dependencies m') t) ∧
  (∀ a, (a ∉ get_file_dependencies resolve_canonical m' a) ∧
        (resolve_canonical a ∉ get_file_dependencies resolve_canonical m' a)) ∧
  (∀ a, add_file_dependency resolve_canonical m' a a = m').
Proof.
  apply (graph_invariant_preserved resolve_canonical new_mapper).
  - reflexivity.
  - apply new_mapper_inv.
Defined.

(** C5, as stated, fails when the referencing file is the defining file:
    the self-edge is dropped, and the file does not depend on itself. *)
Lemma reference_to_own_definition_adds_no_edge :
  let m := add_symbol_reference resolve_canonical
             (add_symbol_definition resolve_canonical new_mapper "/p/a.c" "f")
             "/p/a.c" "f" in
  resolve_canonical "/p/a.c" ∉ get_file_dependencies resolve_canonical m "/p/a.c".
Proof. vm_compute. by intros ?%elem_of_nil. Qed.

(** C5, amended.  When [f1] and [f2] are different files (their canonical
    forms differ), [add_symbol_reference f2 s] after
    [add_symbol_definition f1 s], with any calls in between, leaves the
    canonical form of [f1] in [get_file_dependencies f2]. *)
Theorem reference_adds_dependency (resolve : string → string)
    (m : DependencyMapper) (ops : list mapper_op) (f1 f2 s : string) :
  (∀ p, resolve (resolve p) = resolve p) →
  resolve f1 ≠ resolve f2 →
  let m1 := apply_ops resolve (add_symbol_definition resolve m f1 s) ops in
  resolve f1 ∈ get_file_dependencies resolve
                 (add_symbol_reference resolve m1 f2 s) f2.
Proof.
  intros Hidem Hne m1. unfold get_file_dependencies, add_symbol_reference.
  assert (resolve f1 ∈ SetDict.get (symbol_files m1) s) as Hdef.
  { apply apply_ops_symbol_files. simpl. apply elem_of_get_add. by left. }
  pose proof (add_dependencies_adds resolve m1 (resolve f2) _ (resolve f1) Hdef) as H.
  rewrite !Hidem in H. apply H. congruence.
Qed.

Lemma reference_adds_dependency_witness :
  let m1 := apply_ops resolve_canonical
              (add_symbol_definition resolve_canonical new_mapper "/p/b.c" "f")
              [AddSymbolDefinition "/p/c.c" "f"] in
  resolve_canonical "/p/b.c" ∈
    get_file_dependencies resolve_canonical
      (add_symbol_reference resolve_canonical m1 "/p/a.c" "f") "/p/a.c".
Proof.
  apply (reference_adds_dependency resolve_canonical new_mapper
           [AddSymbolDefinition "/p/c.c" "f"] "/p/b.c" "/p/a.c" "f").
  - reflexivity.
  - discriminate.
Defined.

(** ** The symbol table *)

Lemma symbols_get_set d n v : symbols_get (symbols_set d n v) n = Some v.
Proof.
  induction d as [|[k w] d IH]; simpl.
  - by rewrite decide_True.
  - destruct (decide (k = n)) as [->|Hne]; simpl.
    + by rewrite decide_True.
    + by rewrite decide_False.
Qed.

(** C9.  [add_symbol] with a symbol whose name is already in the table
    logs one warning and leaves the table as it was, whatever the kind and
    scope of the new symbol: every query answers as before.  In particular,
    when the table is the result of adding [first] under a name that was
    free, [get_symbol] still returns [first], with the kind of [first]. *)
Theorem add_symbol_existing_name (t : SymbolTable) (symbol : Symbol) :
  is_Some (get_symbol t (name symbol)) →
  let t' := add_symbol t symbol in
  symbols t' = symbols t ∧
  table_log t' = table_log t ++ [(WARNING, SymbolExists (name symbol))] ∧
  (∀ n, get_symbol t' n = get_symbol t n) ∧
  get_all_symbols t' = get_all_symbols t ∧
  (∀ t0 first,
     name first = name symbol → get_symbol t0 (name first) = None →
     t = add_symbol t0 first →
     get_symbol t' (name symbol) = Some first ∧
     kind <$> get_symbol t' (name symbol) = Some (kind first)).
Proof.
  intros [old Hold] t'. unfold get_symbol in Hold.
  assert (symbols t' = symbols t) as Hsame.
  { unfold t', add_symbol. by rewrite Hold. }
  split_and!.
  - done.
  - unfold t', add_symbol. by rewrite Hold.
  - intros n. unfold get_symbol. by rewrite Hsame.
  - unfold get_all_symbols. by rewrite Hsame.
  - intros t0 first Hname Hfree ->. unfold get_symbol in *. rewrite Hsame.
    unfold add_symbol. rewrite Hfree. simpl.
    rewrite <- Hname, symbols_get_set. done.
Qed.

Lemma add_symbol_existing_name_witness :
  let first := {| name := "count"; kind := "variable"; type_info := "int";
                  scope := "global"; references := [] |} in
  let second := {| name := "count"; kind := "function"; type_info := "void";
                   scope := "block"; references := [] |} in
  let t := add_symbol new_table first in
  let t' := add_symbol t second in
  symbols t' = symbols t ∧
  table_log t' = table_log t ++ [(WARNING, SymbolExists (name second))] ∧
  (∀ n, get_symbol t' n = get_symbol t n) ∧
  get_all_symbols t' = get_all_symbols t ∧
  (∀ t0 first0,
     name first0 = name second → get_symbol t0 (name first0) = None →
     t = add_symbol t0 first0 →
     get_symbol t' (name second) = Some first0 ∧
     kind <$> get_symbol t' (name second) = Some (kind first0)).
Proof.
  intros first second t.
  apply (add_symbol_existing_name t second).
  vm_compute. eauto.
Defined.

(** ** Conditional compilation *)

Lemma starts_conditional_not_endif line :
  starts_conditional line = true → is_endif line = false.
Proof.
  unfold starts_conditional, is_endif.
  destruct (strip line) as [|c1 [|c2 [|c3 r]]];
    cbn [existsb startswith orb andb]; try done;
    repeat match goal with
           | |- context [Ascii.eqb ?a ?b] =>
               destruct (Ascii.eqb_spec a b); subst; cbn [orb andb]; try done
           end.
Qed.

Lemma conditional_loop_acc lines acc b :
  conditional_loop lines acc b = acc ++ conditional_loop lines [] b.
Proof.
  revert acc b. induction lines as [|l lines IH]; intros acc b; simpl.
  - by rewrite app_nil_r.
  - destruct b; [by destruct (is_endif l)|].
    destruct (starts_conditional l); [done|].
    rewrite (IH (acc ++ [l])), (IH [l]). by rewrite app_assoc.
Qed.

Lemma conditional_loop_pass pre rest acc :
  Forall (λ l, starts_conditional l = false) pre →
  conditional_loop (pre ++ rest) acc false = conditional_loop rest (acc ++ pre) false.
Proof.
  intros Hpre. revert acc. induction Hpre as [|l pre Hl Hpre IH]; intros acc; simpl.
  - by rewrite app_nil_r.
  - rewrite Hl, IH. by rewrite <- app_assoc.
Qed.

Lemma conditional_loop_skip body rest acc :
  Forall (λ l, is_endif l = false) body →
  conditional_loop (body ++ rest) acc true = conditional_loop rest acc true.
Proof.
  intros Hbody. induction Hbody as [|l body Hl Hbody IH]; simpl; [done|]. by rewrite Hl.
Qed.

Lemma conditional_loop_unterminated pre opener rest acc b :
  starts_conditional opener = true →
  Forall (λ l, is_endif l = false) rest →
  conditional_loop (pre ++ opener :: rest) acc b = conditional_loop pre acc b.
Proof.
  intros Ho Hrest. revert acc b. induction pre as [|l pre IH]; intros acc b.
  - simpl. rewrite Ho, (starts_conditional_not_endif _ Ho).
    rewrite <- (app_nil_r rest), conditional_loop_skip by done. by destruct b.
  - simpl. destruct b; [by destruct (is_endif l)|].
    by destruct (starts_conditional l).
Qed.

Lemma split_lines_nonempty s : split_lines s ≠ [].
Proof.
  destruct s as [|c s]; simpl; [done|]. case_decide; [done|].
  by destruct (split_lines s).
Qed.

Lemma join_split_lines s : join_lines (split_lines s) = s.
Proof.
  induction s as [|c s IH]; [done|]. simpl.
  pose proof (split_lines_nonempty s) as Hne.
  destruct (split_lines s) as [|l ls]; [done|].
  destruct (decide (c = newline)) as [->|Hc]; [by rewrite <- IH|].
  rewrite <- IH. by destruct ls.
Qed.

(** C8.  Let the lines of the text (split at line feeds) be [pre] followed
    by [rest], where no line of [pre] starts a conditional.  If [rest] is
    empty the text is returned as it is.  If [rest] is a line that starts a
    conditional (after [strip], the line begins with [#if], which covers
    [#ifdef] and [#ifndef]; what follows on the line is not looked at), then
    lines [body] without an [#endif] line, then an [#endif] line, then
    [post], the result is [pre], unchanged, followed by the result of the
    same processing for [post]: the lines from the opening line up to and
    including the first [#endif] line are gone, whatever conditionals [body]
    opens.  Nothing is raised and the preprocessor is left as it was. *)
Theorem conditionals_skip_to_first_endif (source : string)
    (pre rest : list string) (st : CPreprocessor) :
  split_lines source = pre ++ rest →
  Forall (λ l, starts_conditional l = false) pre →
  (rest = [] → _process_conditionals source st = (Ok source, st)) ∧
  (∀ opener body closer post,
     rest = opener :: body ++ closer :: post →
     starts_conditional opener = true →
     Forall (λ l, is_endif l = false) body →
     is_endif closer = true →
     _process_conditionals source st =
       (Ok (join_lines (pre ++ conditional_loop post [] false)), st)).
Proof.
  intros Hsplit Hpre. unfold _process_conditionals, ret. rewrite Hsplit. split.
  - intros ->. rewrite conditional_loop_pass by done. simpl.
    rewrite app_nil_r in Hsplit. by rewrite <- Hsplit, join_split_lines.
  - intros opener body closer post -> Ho Hbody Hc.
    rewrite conditional_loop_pass by done. simpl. rewrite Ho.
    rewrite conditional_loop_skip by done. simpl. rewrite Hc.
    by rewrite conditional_loop_acc.
Qed.

(** C10.  If some line of the text starts a conditional and no later line
    is an [#endif] line, then that line and every line after it are
    discarded: the result is what the lines before it give on their own.
    The call returns; it raises nothing and logs nothing, and it leaves the
    preprocessor as it was. *)
Theorem unterminated_conditional_discards_rest (source : string)
    (pre rest : list string) (opener : string) (st : CPreprocessor) :
  split_lines source = pre ++ opener :: rest →
  starts_conditional opener = true →
  Forall (λ l, is_endif l = false) rest →
  _process_conditionals source st =
    (Ok (join_lines (conditional_loop pre [] false)), st).
Proof.
  intros Hsplit Ho Hrest. unfold _process_conditionals, ret.
  by rewrite Hsplit, conditional_loop_unterminated.
Qed.

Lemma conditionals_skip_to_first_endif_witness :
  let pre := ["int a;"] in
  let rest := ["#ifdef X"; "  #if Y"; "int b;"; "#endif"; "int c;"; "#endif"; "int d;"] in
  let source := join_lines (pre ++ rest) in
  (rest = [] → _process_conditionals source new_preprocessor = (Ok source, new_preprocessor)) ∧
  (∀ opener body closer post,
     rest = opener :: body ++ closer :: post →
     starts_conditional opener = true →
     Forall (λ l, is_endif l = false) body →
     is_endif closer = true →
     _process_conditionals source new_preprocessor =
       (Ok (join_lines (pre ++ conditional_loop post [] false)), new_preprocessor)).
Proof.
  intros pre rest source.
  apply (conditionals_skip_to_first_endif source pre rest new_preprocessor).
  - vm_compute. reflexivity.
  - repeat constructor.
Defined.

(** The same text, run: the nested block ends at the first
    [#endif]; the second [#endif] is outside any skipped region and stays. *)
Example nested_conditional_run :
  _process_conditionals
    (join_lines ["int a;"; "#ifdef X"; "  #if Y"; "int b;"; "#endif"; "int c;";
                 "#endif"; "int d;"]) new_preprocessor
  = (Ok (join_lines ["int a;"; "int c;"; "#endif"; "int d;"]), new_preprocessor).
Proof. vm_compute. reflexivity. Qed.

Lemma unterminated_conditional_discards_rest_witness :
  _process_conditionals
    (join_lines ["int a;"; "#ifndef GUARD_H"; "#define GUARD_H"; "int b;"])
    new_preprocessor
  = (Ok (join_lines (conditional_loop ["int a;"] [] false)), new_preprocessor).
Proof.
  apply (unterminated_conditional_discards_rest _ ["int a;"]
           ["#define GUARD_H"; "int b;"] "#ifndef GUARD_H").
  - vm_compute. reflexivity.
  - vm_compute. reflexivity.
  - repeat constructor.
Defined.

(** ** [process_file] *)

(** Whenever the file cannot be read, [process_file] logs the error and
    then raises: the handler returns a local variable that was never bound. *)
Lemma process_file_read_failure fs path_join re_template fuel file_path st :
  (∀ content, fs file_path ≠ File content) →
  process_file fs path_join re_template fuel file_path st =
    (Raise (UnboundLocalError "source"),
     {| macros := macros st; include_paths := include_paths st;
        processed_includes := processed_includes st;
        log := log st ++ [(ERROR, FileError file_path (OSError file_path))] |}).
Proof.
  intros Hfs. unfold process_file, bind, attempt, read_file.
  destruct (fs file_path) as [| |content|] eqn:E; [done|done| |done].
  by destruct (Hfs content).
Qed.

(** When the file was read and processing it raises, the text that was
    read is returned. *)
Lemma process_file_processing_failure fs path_join re_template fuel file_path
    st content e st' :
  fs file_path = File content →
  process_source fs path_join re_template fuel content file_path st = (Raise e, st') →
  process_file fs path_join re_template fuel file_path st =
    (Ok content,
     {| macros := macros st'; include_paths := include_paths st';
        processed_includes := processed_includes st';
        log := log st' ++ [(ERROR, FileError file_path e)] |}).
Proof.
  intros Hfs Hrun. unfold process_file, bind, attempt, read_file.
  rewrite Hfs. unfold ret. by rewrite Hrun.
Qed.

(** C1 (the code departs from the claim).  On a file system without the
    file, [process_file] does not return: it logs the [OSError] and raises
    [UnboundLocalError], whatever the state of the preprocessor. *)
Theorem process_file_missing_file_raises
    (path_join : string → string → string)
    (re_template : string → option (string → string))
    (fuel : nat) (file_path : string) (st : CPreprocessor) :
  process_file (λ _, Missing) path_join re_template fuel file_path st =
    (Raise (UnboundLocalError "source"),
     {| macros := macros st; include_paths := include_paths st;
        processed_includes := processed_includes st;
        log := log st ++ [(ERROR, FileError file_path (OSError file_path))] |}).
Proof. by rewrite process_file_read_failure. Qed.

(** ** Macro expansion *)


Lemma string_app_empty_r s : (s +:+ EmptyString) = s.
Proof.
  induction s as [|c s IH]; [done|].
  change (String c (s +:+ EmptyString) = String c s). by rewrite IH.
Qed.



Lemma strip_prefix_empty p : p ≠ EmptyString → strip_prefix p EmptyString = None.
Proof. by destruct p. Qed.

Lemma all_word_app p r : all_word (p +:+ r) = all_word p && all_word r.
Proof. induction p as [|a p IH]; simpl; [done|]. by rewrite IH, andb_assoc. Qed.

Lemma last_char_wordy prev s :
  all_word s = true → wordy prev = true → wordy (last_char prev s) = true.
Proof.
  revert prev. induction s as [|c s IH]; intros prev; simpl; [done|].
  intros [Hc Hs]%andb_true_iff _. by apply IH.
Qed.

Lemma last_char_identifier prev s :
  is_identifier s → wordy (last_char prev s) = true.
Proof.
  intros [Hne Hw]. destruct s as [|c s]; [done|]. simpl in *.
  apply andb_true_iff in Hw as [Hc Hs]. by apply last_char_wordy.
Qed.











(** Whole words only: [MAXLEN] is replaced, [MAXLENGTH] is not. *)
Example macro_word_boundary :
  re_sub_word plain_template_only "MAXLEN" "100" "int buf[MAXLEN]; char s[MAXLENGTH];"
  = Ok "int buf[100]; char s[MAXLENGTH];".
Proof. vm_compute. reflexivity. Qed.

(** ** Include expansion *)

Lemma keeps_ret {A : Type} (a : A) : keeps_processed (ret a).
Proof. by intros st. Qed.

Lemma keeps_raise {A : Type} e : keeps_processed (@raise A e).
Proof. by intros st. Qed.

Lemma keeps_bind {A B : Type} (m : M A) (k : A → M B) :
  keeps_processed m → (∀ a, keeps_processed (k a)) → keeps_processed (bind m k).
Proof.
  intros Hm Hk st. unfold bind. specialize (Hm st).
  destruct (m st) as [[a|e|] st']; simpl in *; [|done|done].
  etrans; [exact Hm|apply Hk].
Qed.

Lemma keeps_attempt {A : Type} (m : M A) :
  keeps_processed m → keeps_processed (attempt m).
Proof.
  intros Hm st. unfold attempt. specialize (Hm st).
  by destruct (m st) as [[a|e|] st'].
Qed.

Lemma keeps_log r : keeps_processed (log_record_add r).
Proof. by intros st. Qed.

Lemma keeps_mark p : keeps_processed (mark_processed p).
Proof. intros st. simpl. set_solver. Qed.

Section IncludeProperties.

Variable fs : string → fs_entry.
Variable path_join : string → string → string.
Variable re_template : string → option (string → string).

Lemma keeps_read_file path : keeps_processed (read_file fs path).
Proof. unfold read_file. destruct (fs path); auto using @keeps_ret, @keeps_raise. Qed.

Lemma keeps_path_exists path : keeps_processed (path_exists fs path).
Proof. unfold path_exists. destruct (fs path); auto using @keeps_ret, @keeps_raise. Qed.

Lemma keeps_expand_macros source : keeps_processed (_expand_macros re_template source).
Proof. by intros st. Qed.

Lemma keeps_search_include rec include_path whole dirs :
  (∀ s f, keeps_processed (rec s f)) →
  keeps_processed (search_include fs path_join rec include_path whole dirs).
Proof.
  intros Hrec. induction dirs as [|d dirs IH]; simpl.
  - apply keeps_bind; [apply keeps_log|]. intros _. apply keeps_ret.
  - apply keeps_bind; [apply keeps_path_exists|]. intros [|]; [|done].
    apply keeps_bind.
    + apply keeps_attempt, keeps_bind; [apply keeps_read_file|]. intros c. apply Hrec.
    + intros [e|text]; [|apply keeps_ret].
      apply keeps_bind; [apply keeps_log|]. by intros _.
Qed.

Lemma keeps_replace_include rec include_path whole :
  (∀ s f, keeps_processed (rec s f)) →
  keeps_processed (replace_include fs path_join rec include_path whole).
Proof.
  intros Hrec. unfold replace_include. apply keeps_bind; [by intros st|].
  intros st. case_decide; [apply keeps_ret|].
  apply keeps_bind; [apply keeps_mark|]. intros _. by apply keeps_search_include.
Qed.

Lemma keeps_include_scan repl skip s :
  (∀ p w, keeps_processed (repl p w)) → keeps_processed (include_scan repl skip s).
Proof.
  intros Hrepl. revert skip. induction s as [|c s IH]; intros skip; simpl.
  - apply keeps_ret.
  - destruct skip as [|k]; [|apply IH].
    destruct (match_include (String c s)) as [[spec len]|].
    + apply keeps_bind; [apply Hrepl|]. intros r.
      apply keeps_bind; [apply IH|]. intros rest. apply keeps_ret.
    + apply keeps_bind; [apply IH|]. intros rest. apply keeps_ret.
Qed.

Lemma keeps_process_source fuel source file :
  keeps_processed (process_source fs path_join re_template fuel source file).
Proof.
  revert source file. induction fuel as [|fuel IH]; intros source file; simpl.
  - by intros st.
  - apply keeps_bind.
    + unfold _process_includes. apply keeps_include_scan. intros p w.
      by apply keeps_replace_include.
    + intros s1. apply keeps_bind; [apply keeps_expand_macros|].
      intros s2. apply keeps_ret.
Qed.

(** The first occurrence records the spec, whatever happens next. *)
Lemma replace_include_records rec include_path whole st :
  (∀ s f, keeps_processed (rec s f)) →
  include_path ∈ processed_includes
                   (replace_include fs path_join rec include_path whole st).2.
Proof.
  intros Hrec. unfold replace_include, bind, get_state.
  case_decide as Hin; [done|]. simpl.
  apply (keeps_search_include rec include_path whole (include_paths st) Hrec).
  simpl. set_solver.
Qed.

Lemma replace_include_repeated rec include_path whole st :
  include_path ∈ processed_includes st →
  replace_include fs path_join rec include_path whole st = (Ok EmptyString, st).
Proof.
  intros Hin. unfold replace_include, bind, get_state. by rewrite decide_True.
Qed.

(** The scan calls the replacement function for each match, in the order
    of the text. *)
Lemma include_scan_tokens repl skip s st :
  include_scan repl skip s st = expand_tokens repl (include_tokens skip s) st.
Proof.
  revert skip st. induction s as [|c s IH]; intros skip st; [done|].
  cbn [include_scan include_tokens]. destruct skip as [|k]; [|apply IH].
  destruct (match_include (String c s)) as [[spec len]|]; cbn [expand_tokens].
  - unfold bind at 1 3. destruct (repl spec _ st) as [[r|e|] st1]; [|done|done].
    unfold bind. by rewrite IH.
  - unfold bind. by rewrite IH.
Qed.

Lemma include_specs_tokens skip s spec :
  spec ∈ include_specs skip s ↔ ∃ whole, Directive spec whole ∈ include_tokens skip s.
Proof.
  revert skip. induction s as [|c s IH]; intros skip; cbn [include_specs include_tokens].
  - split; [by intros ?%elem_of_nil|by intros [w ?%elem_of_nil]].
  - destruct skip as [|k]; [|apply IH].
    destruct (match_include (String c s)) as [[spec' len]|].
    + rewrite elem_of_cons, IH. split.
      * intros [->|[w Hw]]; [eexists; left|exists w; by right].
      * intros [w [[= -> _]|Hw]%elem_of_cons]; [by left|right; by exists w].
    + rewrite IH. split.
      * intros [w Hw]. exists w. by right.
      * intros [w [[=]|Hw]%elem_of_cons]. by exists w.
Qed.

Lemma string_app_assoc (a b c : string) : (a +:+ b) +:+ c = a +:+ b +:+ c.
Proof.
  induction a as [|x a IH]; [done|].
  change (String x ((a +:+ b) +:+ c) = String x (a +:+ b +:+ c)). by rewrite IH.
Qed.

Lemma expand_tokens_app repl tokens1 tokens2 st :
  expand_tokens repl (tokens1 ++ tokens2) st =
    (let* text1 := expand_tokens repl tokens1 in
     let* text2 := expand_tokens repl tokens2 in
     ret (text1 +:+ text2)) st.
Proof.
  revert st. induction tokens1 as [|[c|spec whole] tokens1 IH]; intros st;
    cbn [app expand_tokens].
  - unfold bind, ret. simpl.
    destruct (expand_tokens repl tokens2 st) as [[t|e|] st2]; reflexivity.
  - unfold bind. rewrite IH. unfold bind, ret.
    destruct (expand_tokens repl tokens1 st) as [[t1|e|] st1]; [|reflexivity..].
    destruct (expand_tokens repl tokens2 st1) as [[t2|e|] st2]; reflexivity.
  - unfold bind.
    destruct (repl spec whole st) as [[r|e|] st1]; [|reflexivity..].
    rewrite IH. unfold bind, ret.
    destruct (expand_tokens repl tokens1 st1) as [[t1|e|] st2]; [|reflexivity..].
    destruct (expand_tokens repl tokens2 st2) as [[t2|e|] st3]; [|reflexivity..].
    by rewrite string_app_assoc.
Qed.

(** A match whose spec is on record, or was met earlier in the text,
    contributes nothing to the text and changes nothing. *)
Lemma expand_tokens_repeated rec before include_path whole after st :
  (∀ s f, keeps_processed (rec s f)) →
  include_path ∈ processed_includes st
  ∨ (∃ earlier, Directive include_path earlier ∈ before) →
  expand_tokens (replace_include fs path_join rec)
    (before ++ Directive include_path whole :: after) st
  = expand_tokens (replace_include fs path_join rec) (before ++ after) st.
Proof.
  intros Hrec. revert st.
  induction before as [|[c|spec' whole'] before IH]; intros st Hseen;
    cbn [app expand_tokens].
  - destruct Hseen as [Hin|[w Hw%elem_of_nil]]; [|done].
    unfold bind at 1. rewrite replace_include_repeated by done.
    unfold bind, ret. by destruct (expand_tokens _ after st) as [[t|e|] st1].
  - unfold bind. rewrite IH; [done|].
    destruct Hseen as [Hin|[w [[=]|Hw]%elem_of_cons]]; [by left|right; by exists w].
  - unfold bind at 1 3.
    pose proof (keeps_replace_include rec spec' whole' Hrec st) as Hkeep.
    pose proof (replace_include_records rec spec' whole' st Hrec) as Hmark.
    destruct (replace_include _ _ _ spec' whole' st) as [[r|e|] st1]; [|done|done].
    simpl in Hkeep, Hmark. unfold bind. rewrite IH; [done|].
    destruct Hseen as [Hin|[w [[= -> _]|Hw]%elem_of_cons]];
      [left; set_solver|by left|right; by exists w].
Qed.

End IncludeProperties.

(** C7.  The first occurrence of an include spec records it in
    [processed_includes] before anything is read, so the files it brings in
    are processed with the spec recorded; the spec stays recorded through
    everything that is processed afterwards; and an occurrence of a recorded
    spec expands to the empty text and changes nothing.  [reset] gives the
    state of a new preprocessor (the log apart): the spec is no longer
    recorded, and once a directory that holds the file is on the include path
    again, the spec expands to the processed content of the file.

    In a text: [_process_includes] replaces each match of the include
    pattern, in the order of the text, by what [replace_include] returns for
    it.  A match whose spec is on record when the text is processed (it was
    met in an enclosing or an earlier file), or is the spec of an earlier
    match of the same text, contributes nothing: the result and the state
    are those obtained with this match left out.  So for a text [pre], a
    directive, and a text [post], cut by the scan at these two places, the
    result is the result for [pre] followed by the result for [post], with
    nothing between them. *)
Theorem repeated_include_expands_to_nothing
    (fs : string → fs_entry) (path_join : string → string → string)
    (re_template : string → option (string → string))
    (fuel : nat) (include_path whole_match : string) (st : CPreprocessor) :
  let process := process_source fs path_join re_template in
  let first := replace_include fs path_join (process fuel) include_path whole_match st in
  include_path ∈ processed_includes first.2 ∧
  (include_path ∉ processed_includes st →
   first = search_include fs path_join (process fuel) include_path whole_match
             (include_paths st)
             {| macros := macros st; include_paths := include_paths st;
                processed_includes := processed_includes st ∪ {[include_path]};
                log := log st |}) ∧
  (∀ st1, include_path ∈ processed_includes st1 →
     (∀ fuel' source file,
        include_path ∈ processed_includes (process fuel' source file st1).2) ∧
     (∀ rec whole,
        replace_include fs path_join rec include_path whole st1 = (Ok EmptyString, st1))) ∧
  (∀ st1,
     reset st1 = {| macros := []; include_paths := []; processed_includes := ∅;
                    log := log st1 |} ∧
     (include_path ∉ processed_includes (reset st1)) ∧
     (∀ dir content text st2,
        fs (path_join dir include_path) = File content →
        process fuel content (path_join dir include_path)
          {| macros := []; include_paths := [dir];
             processed_includes := {[include_path]}; log := log st1 |}
          = (Ok text, st2) →
        replace_include fs path_join (process fuel) include_path whole_match
          (add_include_path dir (reset st1)) = (Ok text, st2))) ∧
  (∀ source current_file st0,
     _process_includes fs path_join (process fuel) source current_file st0
     = expand_tokens (replace_include fs path_join (process fuel))
         (include_tokens 0 source) st0) ∧
  (∀ source current_file st0 before whole after,
     include_tokens 0 source = before ++ Directive include_path whole :: after →
     include_path ∈ processed_includes st0
     ∨ (∃ earlier, Directive include_path earlier ∈ before) →
     _process_includes fs path_join (process fuel) source current_file st0
     = expand_tokens (replace_include fs path_join (process fuel))
         (before ++ after) st0) ∧
  (∀ pre whole post current_file st0 text1 st1,
     include_tokens 0 (pre +:+ whole +:+ post)
     = include_tokens 0 pre ++ Directive include_path whole :: include_tokens 0 post →
     include_path ∈ processed_includes st0 ∨ include_path ∈ include_specs 0 pre →
     _process_includes fs path_join (process fuel) pre current_file st0
     = (Ok text1, st1) →
     _process_includes fs path_join (process fuel) (pre +:+ whole +:+ post)
       current_file st0
     = (let* text2 := _process_includes fs path_join (process fuel) post current_file in
        ret (text1 +:+ text2)) st1).
Proof.
  intros process first.
  assert (∀ s f, keeps_processed (process fuel s f)) as Hkeep.
  { intros s f. apply keeps_process_source. }
  split_and!.
  - by apply replace_include_records.
  - intros Hnot. unfold first, replace_include, bind, get_state.
    by rewrite decide_False.
  - intros st1 Hin. split.
    + intros fuel' source file.
      by apply (keeps_process_source fs path_join re_template fuel' source file st1).
    + intros rec whole. by apply replace_include_repeated.
  - intros st1. split_and!; [done|set_solver|].
    intros dir content text st2 Hfile Hrun.
    unfold add_include_path, reset. simpl.
    unfold replace_include, bind, get_state. simpl.
    rewrite decide_False by set_solver. simpl.
    unfold path_exists, attempt, read_file. rewrite Hfile. unfold bind, ret.
    replace (∅ ∪ {[include_path]} : gset string) with ({[include_path]} : gset string)
      by set_solver.
    by rewrite Hrun.
  - intros source current_file st0. apply include_scan_tokens.
  - intros source current_file st0 before whole after Htokens Hseen.
    unfold _process_includes. rewrite include_scan_tokens, Htokens.
    by apply expand_tokens_repeated.
  - intros pre whole post current_file st0 text1 st1 Htokens Hseen Hpre.
    unfold _process_includes in *. rewrite include_scan_tokens, Htokens.
    rewrite (expand_tokens_repeated fs path_join re_template (process fuel)
               (include_tokens 0 pre) include_path whole (include_tokens 0 post) st0 Hkeep).
    + rewrite expand_tokens_app. unfold bind at 1.
      rewrite <- include_scan_tokens, Hpre. unfold bind.
      by rewrite <- include_scan_tokens.
    + destruct Hseen as [Hin|Hin]; [by left|right]. by apply include_specs_tokens.
Qed.

(** The text of [demo_source] is cut into the first directive with the
    line feed after it, the second directive, and the rest.  The second
    directive contributes nothing: the result is the header, in which the
    directive for the header itself has become empty, followed by the
    rest. *)
Lemma repeated_include_expands_to_nothing_witness :
  let st0 := add_include_path "inc" new_preprocessor in
  let process := process_source demo_fs demo_join plain_template_only in
  let pre := join_lines ["#include <defs.h>"; ""] in
  let post := join_lines [""; "int y;"] in
  demo_source = pre +:+ "#include <defs.h>" +:+ post ∧
  (_process_includes demo_fs demo_join (process 2) pre "main.c" st0).1
    = Ok (join_lines ["int x;"; ""; ""]) ∧
  (_process_includes demo_fs demo_join (process 2) demo_source "main.c" st0).1
    = Ok (join_lines ["int x;"; ""; ""; "int y;"]) ∧
  _process_includes demo_fs demo_join (process 2) demo_source "main.c" st0
    = (let* text2 := _process_includes demo_fs demo_join (process 2) post "main.c" in
       ret (join_lines ["int x;"; ""; ""] +:+ text2))
        (_process_includes demo_fs demo_join (process 2) pre "main.c" st0).2.
Proof.
  intros st0 process pre post.
  split_and!; [vm_compute; reflexivity|vm_compute; reflexivity|vm_compute; reflexivity|].
  pose proof (repeated_include_expands_to_nothing demo_fs demo_join plain_template_only
                2 "defs.h" "#include <defs.h>" st0) as Hclaim.
  cbv zeta in Hclaim. destruct Hclaim as (_ & _ & _ & _ & _ & _ & Htext).
  apply (Htext pre "#include <defs.h>" post "main.c" st0).
  - vm_compute. reflexivity.
  - right. vm_compute. left.
  - vm_compute. reflexivity.
Defined.

(** The first directive expands to the header, in which the directive for
    the header itself has become empty; the second directive becomes empty.
    Processing the same text again with the same preprocessor expands
    nothing; after [reset] and [add_include_path] it is as the first time.
    After [reset] alone the include path is empty: the first directive is
    not found and stays, the second one becomes empty. *)
Example include_twice_run :
  let st0 := add_include_path "inc" new_preprocessor in
  let run := process_source demo_fs demo_join plain_template_only 3 demo_source "main.c" in
  (run st0).1 = Ok (join_lines ["int x;"; ""; ""; "int y;"]) ∧
  (run (run st0).2).1 = Ok (join_lines [""; ""; "int y;"]) ∧
  (run (add_include_path "inc" (reset (run st0).2))).1
    = Ok (join_lines ["int x;"; ""; ""; "int y;"]) ∧
  (run (reset (run st0).2)).1 = Ok (join_lines ["#include <defs.h>"; ""; "int y;"]).
Proof. vm_compute. done. Qed.

(** ** [get_strongly_connected_components] *)

Section Components.

Variable g : SetDict.t.

Lemma scc_extends_refl s : scc_extends g s s [].
Proof.
  unfold scc_extends. rewrite app_nil_r. split_and!; try done.
  - set_solver.
  - constructor.
  - intros x Hx. by apply elem_of_nil in Hx.
  - intros a b Ha. by apply elem_of_nil in Ha.
Qed.

Lemma scc_extends_trans s s1 s2 e1 e2 :
  scc_extends g s s1 e1 → scc_extends g s1 s2 e2 → scc_extends g s s2 (e1 ++ e2).
Proof.
  intros (Hv1 & Hc1 & Hn1 & Hf1 & Hcl1) (Hv2 & Hc2 & Hn2 & Hf2 & Hcl2).
  unfold scc_extends. split_and!.
  - rewrite Hv2, Hv1. set_solver.
  - by rewrite Hc2, Hc1, app_assoc.
  - apply NoDup_app. split_and!; [done| |done].
    intros x Hx Hx'. apply Hf2 in Hx' as [Hx' _]. apply Hx'. rewrite Hv1. set_solver.
  - intros x [Hx|Hx]%elem_of_app; [by apply Hf1|].
    apply Hf2 in Hx as [Hx1 Hx2]. split; [|done]. rewrite Hv1 in Hx1. set_solver.
  - intros a b [Ha|Ha]%elem_of_app Hab; [|by eapply Hcl2].
    rewrite Hv2. apply elem_of_union. left. by eapply Hcl1.
Qed.

Lemma scc_loop_spec fuel n l :
  (∀ d s, edge g n d → d ∉ scc_visited s →
     (∀ x, x ∈ scc_component s → x ∈ scc_visited s) →
     size (universe g ∖ scc_visited s) ≤ fuel →
     ∃ s' ext, dfs fuel g d s = Ok s' ∧ scc_extends g s s' ext ∧
       d ∈ ext ∧ (∀ x, x ∈ ext → rtc (edge g) d x)) →
  (∀ d, d ∈ l → edge g n d) →
  ∀ s, (∀ x, x ∈ scc_component s → x ∈ scc_visited s) →
    size (universe g ∖ scc_visited s) ≤ fuel →
    ∃ s' ext,
      for_each (λ dep s, if decide (dep ∉ scc_visited s)
                         then dfs fuel g dep s else Ok s) l s = Ok s' ∧
      scc_extends g s s' ext ∧
      (∀ d, d ∈ l → d ∈ scc_visited s') ∧
      (∀ x, x ∈ ext → rtc (edge g) n x).
Proof.
  intros Hdfs. induction l as [|d l IH]; intros Hl s Hcomp Hsize.
  - exists s, []. split_and!; [done|apply scc_extends_refl| |];
      intros x Hx; by apply elem_of_nil in Hx.
  - assert (edge g n d) as Hnd by (apply Hl; left).
    assert (∃ s1 e1, (if decide (d ∉ scc_visited s) then dfs fuel g d s else Ok s) = Ok s1 ∧
              scc_extends g s s1 e1 ∧ d ∈ scc_visited s1 ∧
              (∀ x, x ∈ e1 → rtc (edge g) n x)) as (s1 & e1 & Hrun & Hext1 & Hd1 & Hr1).
    { destruct (decide (d ∉ scc_visited s)) as [Hd|Hd].
      - destruct (Hdfs d s Hnd Hd Hcomp Hsize) as (s1 & e1 & Hrun & Hext1 & Hin & Hr).
        exists s1, e1. split_and!; [done|done| |].
        + destruct Hext1 as (-> & _). set_solver.
        + intros x Hx. eapply rtc_l; [exact Hnd|by apply Hr].
      - exists s, []. split_and!; [done|apply scc_extends_refl|by apply dec_stable|].
        intros x Hx. by apply elem_of_nil in Hx. }
    destruct (IH (λ d' Hd', Hl d' (list_elem_of_further _ _ _ Hd')) s1)
      as (s2 & e2 & Hloop & Hext2 & Hall & Hr2).
    { destruct Hext1 as (-> & -> & _). intros x [Hx|Hx]%elem_of_app; [|set_solver].
      apply Hcomp in Hx. set_solver. }
    { etrans; [|exact Hsize]. apply subseteq_size.
      destruct Hext1 as (-> & _). set_solver. }
    exists s2, (e1 ++ e2). simpl. rewrite Hrun. split_and!.
    + done.
    + by eapply scc_extends_trans.
    + intros d' [->|Hd']%elem_of_cons; [|by apply Hall].
      destruct Hext2 as (-> & _). set_solver.
    + intros x [Hx|Hx]%elem_of_app; auto.
Qed.

Lemma dfs_spec fuel :
  ∀ n s, is_node g n → n ∉ scc_visited s →
    (∀ x, x ∈ scc_component s → x ∈ scc_visited s) →
    size (universe g ∖ scc_visited s) ≤ fuel →
    ∃ s' ext, dfs fuel g n s = Ok s' ∧ scc_extends g s s' ext ∧
      (∃ rest, ext = n :: rest) ∧ (∀ x, x ∈ ext → rtc (edge g) n x).
Proof.
  induction fuel as [|fuel IH]; intros n s Hn Hfresh Hcomp Hsize.
  - assert (n ∈ universe g ∖ scc_visited s) as Hin.
    { apply elem_of_difference. split; [|done]. by apply elem_of_list_to_set, is_node_nodes. }
    assert (universe g ∖ scc_visited s ≡ ∅) as Hemp.
    { apply size_empty_iff. lia. }
    set_solver.
  - simpl.
    set (s1 := {| scc_visited := scc_visited s ∪ {[n]};
                  scc_component := SetDict.set_add n (scc_component s) |}).
    assert (scc_component s1 = scc_component s ++ [n]) as Hc1.
    { simpl. unfold SetDict.set_add. rewrite decide_False; [done|].
      intros Hx. by apply Hcomp in Hx. }
    destruct (scc_loop_spec fuel n (SetDict.get g n)) with (s := s1)
      as (s2 & e2 & Hloop & Hext & Hall & Hreach).
    { intros d s0 Hnd Hd Hc0 Hs0.
      destruct (IH d s0) as (s' & ext & Hrun & Hext & [rest ->] & Hr); [|done|done|done|].
      { right. by exists n. }
      exists s', (d :: rest). split_and!; [done|done|left|done]. }
    { done. }
    { rewrite Hc1. intros x [Hx|Hx]%elem_of_app; simpl; [|set_solver].
      apply Hcomp in Hx. set_solver. }
    { assert (size (universe g ∖ scc_visited s1) < size (universe g ∖ scc_visited s)); [|lia].
      apply subset_size. simpl.
      assert (n ∈ universe g) by (by apply elem_of_list_to_set, is_node_nodes).
      apply strict_spec_alt. split; [set_solver|].
      intros Heq. assert (n ∈ universe g ∖ scc_visited s) as Hin by set_solver.
      rewrite <- Heq in Hin. set_solver. }
    fold s1. rewrite Hloop.
    destruct Hext as (Hv2 & Hc2 & Hn2 & Hf2 & Hcl2). simpl in Hv2.
    assert (n ∉ e2) as Hne by (intros Hx; apply Hf2 in Hx; simpl in Hx; set_solver).
    exists s2, (n :: e2). split_and!; [done| |by exists e2|].
    + unfold scc_extends. split_and!.
      * rewrite Hv2. set_solver.
      * rewrite Hc2, Hc1. by rewrite <- app_assoc.
      * by constructor.
      * intros x [->|Hx]%elem_of_cons; [done|].
        apply Hf2 in Hx as [Hx ?]. simpl in Hx. split; [set_solver|done].
      * intros a b [->|Ha]%elem_of_cons Hab; [by apply Hall|by eapply Hcl2].
    + intros x [->|Hx]%elem_of_cons; [done|by apply Hreach].
Qed.

Lemma scc_root_spec fuel k st :
  size (universe g) ≤ fuel → k ∈ SetDict.keys g → scc_inv g st →
  ∃ st' more, scc_root fuel g k st = Ok st' ∧ scc_inv g st' ∧
    st'.2 = st.2 ++ more ∧ st.1 ⊆ st'.1 ∧ k ∈ st'.1 ∧
    (st.2 = [] → st.1 = ∅ → ∃ c, more = [c] ∧ ∀ x, x ∈ c ↔ rtc (edge g) k x).
Proof.
  intros Hfuel Hk (Hmem & Hnd & Hnode & Hclosed & Hall). unfold scc_root.
  destruct (decide (k ∉ st.1)) as [Hfresh|Hseen].
  - destruct (dfs_spec fuel k {| scc_visited := st.1; scc_component := [] |})
      as (s' & ext & -> & (Hv & Hc & Hn & Hf & Hcl) & [rest ->] & Hreach);
      [by left|done|by intros x ?%elem_of_nil| |].
    { etrans; [|exact Hfuel]. apply subseteq_size. set_solver. }
    cbn [scc_visited scc_component app] in *. rewrite Hc, Hv.
    assert (mjoin (st.2 ++ [k :: rest]) = mjoin st.2 ++ k :: rest) as Hjoin.
    { rewrite list_join_bind, bind_app, <- !list_join_bind.
      change (mjoin [k :: rest]) with ((k :: rest) ++ []). by rewrite app_nil_r. }
    exists (st.1 ∪ list_to_set (k :: rest), st.2 ++ [k :: rest]), [k :: rest].
    split_and!; [done| |done|set_solver|set_solver|].
    + unfold scc_inv. cbn [fst snd]. rewrite Hjoin. split_and!.
      * intros x. rewrite elem_of_union, Hmem, elem_of_list_to_set, elem_of_app. done.
      * apply NoDup_app. split_and!; [done| |done].
        intros x Hx Hx'. apply Hmem in Hx. by apply Hf in Hx' as [? _].
      * intros x [Hx|Hx]%elem_of_union; [by apply Hnode|].
        apply elem_of_list_to_set in Hx. by apply Hf in Hx as [_ ?].
      * intros a b [Ha|Ha]%elem_of_union Hab.
        -- apply elem_of_union. left. by eapply Hclosed.
        -- rewrite <- Hv. apply elem_of_list_to_set in Ha. by eapply Hcl.
      * apply Forall_app. split; [done|]. constructor; [|done].
        by exists k, rest.
    + intros _ Hempty. exists (k :: rest). split; [done|].
      intros x. split; [apply Hreach|].
      revert x. apply rtc_ind_r; [left|]. intros y z _ Hyz IH.
      specialize (Hcl y z IH Hyz). rewrite Hv, Hempty in Hcl.
      apply elem_of_union in Hcl as [Hcl|Hcl]; [set_solver|].
      by apply elem_of_list_to_set in Hcl.
  - exists st, []. rewrite app_nil_r. split_and!; [by destruct st|done|done|done| |].
    + by apply dec_stable.
    + intros _ Hempty. destruct Hseen. rewrite Hempty. set_solver.
Qed.

Lemma scc_top_spec fuel l :
  size (universe g) ≤ fuel → (∀ k, k ∈ l → k ∈ SetDict.keys g) →
  ∀ st, scc_inv g st →
  ∃ st' more, for_each (scc_root fuel g) l st = Ok st' ∧ scc_inv g st' ∧
    st'.2 = st.2 ++ more ∧ st.1 ⊆ st'.1 ∧ (∀ k, k ∈ l → k ∈ st'.1).
Proof.
  intros Hfuel. induction l as [|k l IH]; intros Hl st Hinv.
  - exists st, []. rewrite app_nil_r. split_and!; try done.
    intros k Hk. by apply elem_of_nil in Hk.
  - destruct (scc_root_spec fuel k st Hfuel) as (st1 & m1 & Hrun & Hinv1 & Hp1 & Hs1 & Hk1 & _);
      [apply Hl; left|done|].
    destruct (IH (λ k' Hk', Hl k' (list_elem_of_further _ _ _ Hk')) st1 Hinv1)
      as (st2 & m2 & Hloop & Hinv2 & Hp2 & Hs2 & Hall).
    exists st2, (m1 ++ m2). simpl. rewrite Hrun. split_and!; [done|done| |set_solver|].
    + by rewrite Hp2, Hp1, app_assoc.
    + intros k' [->|Hk']%elem_of_cons; [set_solver|by apply Hall].
Qed.

End Components.

Lemma dfs_fuel_mono g fuel :
  ∀ fuel' n s r, fuel ≤ fuel' → dfs fuel g n s = Ok r → dfs fuel' g n s = Ok r.
Proof.
  induction fuel as [|fuel IH]; intros fuel' n s r Hle; [done|].
  destruct fuel' as [|fuel']; [lia|]. simpl.
  apply for_each_mono. intros x s0 r0. case_decide; [|done]. apply IH. lia.
Qed.

Lemma get_components_fuel_mono m fuel fuel' r :
  fuel ≤ fuel' →
  get_strongly_connected_components fuel m = Ok r →
  get_strongly_connected_components fuel' m = Ok r.
Proof.
  intros Hle. unfold get_strongly_connected_components.
  destruct (for_each (scc_root fuel _) _ _) as [s| |] eqn:E; [|done|done].
  erewrite for_each_mono; [done| |exact E].
  intros x s0 r0. unfold scc_root. case_decide; [|done].
  destruct (dfs fuel _ x _) as [s1| |] eqn:E1; [|done|done].
  by rewrite (dfs_fuel_mono _ fuel fuel' x _ s1 Hle E1).
Qed.

Lemma scc_inv_init g : scc_inv g (∅, []).
Proof.
  unfold scc_inv. simpl. split; [|split; [|split; [|split]]].
  - intros x. set_solver.
  - constructor.
  - intros x Hx. set_solver.
  - intros a b Ha. set_solver.
  - constructor.
Qed.

Lemma components_spec (m : DependencyMapper) :
  ∃ cs, get_strongly_connected_components (enough_fuel m) m = Ok cs ∧
    scc_inv (dependencies m) (list_to_set (mjoin cs), cs) ∧
    (∀ k, k ∈ SetDict.keys (dependencies m) → k ∈ mjoin cs).
Proof.
  unfold get_strongly_connected_components. set (g := dependencies m).
  destruct (scc_top_spec g (enough_fuel m) (SetDict.keys g)) with (st := (∅ : gset string, @nil (list string)))
    as (st' & more & -> & Hinv & Hp & _ & Hall);
    [unfold enough_fuel; fold g; lia|done|apply scc_inv_init|].
  exists st'.2. split; [done|].
  pose proof Hinv as (Hmem & Hnd & Hnode & Hclosed & Hcs).
  assert (list_to_set (mjoin st'.2) = st'.1) as Heq.
  { apply set_eq. intros x. by rewrite elem_of_list_to_set, Hmem. }
  rewrite Heq. split; [by destruct st'|].
  intros k Hk. by apply Hmem, Hall.
Qed.

(** X1.  [get_strongly_connected_components] returns on every graph (for
    every sufficient recursion bound, the same list).  Its components
    partition the files of the graph: every file is in exactly one
    component.  Each component starts with a key of [dependencies], and each
    of its members is reachable from that key along dependency edges. *)
Theorem components_partition_files (m : DependencyMapper) :
  ∃ cs,
    (∀ fuel, enough_fuel m ≤ fuel →
       get_strongly_connected_components fuel m = Ok cs) ∧
    NoDup (mjoin cs) ∧
    (∀ x, x ∈ mjoin cs ↔ is_node (dependencies m) x) ∧
    Forall (λ c, ∃ root rest, c = root :: rest ∧
                   root ∈ SetDict.keys (dependencies m) ∧
                   ∀ x, x ∈ c → rtc (edge (dependencies m)) root x) cs.
Proof.
  destruct (components_spec m) as (cs & Hrun & (Hmem & Hnd & Hnode & Hclosed & Hcs) & Hkeys).
  simpl in *. exists cs. split_and!; [|done| |done].
  - intros fuel Hfuel. by apply (get_components_fuel_mono m (enough_fuel m)).
  - intros x. split.
    + intros Hx. apply Hnode. by apply elem_of_list_to_set.
    + intros [Hx|[a Ha]]; [by apply Hkeys|].
      apply Hmem. apply (Hclosed a x); [|done].
      apply elem_of_list_to_set, Hkeys. by eapply edge_source_key.
Qed.

(** X2.  The first component is the set of all files reachable from the
    first key of [dependencies] along dependency edges, in one direction:
    a file is grouped with the files it depends on, whether or not they
    depend on it. *)
Theorem first_component_is_reachable_set (m : DependencyMapper)
    (first : string) (others : list string) :
  SetDict.keys (dependencies m) = first :: others →
  ∃ c cs,
    (∀ fuel, enough_fuel m ≤ fuel →
       get_strongly_connected_components fuel m = Ok (c :: cs)) ∧
    (∀ x, x ∈ c ↔ rtc (edge (dependencies m)) first x).
Proof.
  intros Hkeys. set (g := dependencies m) in *.
  assert (size (universe g) ≤ enough_fuel m) as Hfuel by (unfold enough_fuel; fold g; lia).
  destruct (scc_root_spec g (enough_fuel m) first (∅, []) Hfuel)
    as (st1 & more & Hrun & Hinv1 & Hp1 & _ & _ & Hfirst);
    [rewrite Hkeys; left|apply scc_inv_init|].
  destruct (Hfirst eq_refl eq_refl) as (c & -> & Hc). simpl in Hp1.
  destruct (scc_top_spec g (enough_fuel m) others Hfuel) with (st := st1)
    as (st2 & more2 & Hloop & _ & Hp2 & _); [|done|].
  { intros k Hk. rewrite Hkeys. by right. }
  exists c, more2. split; [|done].
  intros fuel Hle. apply (get_components_fuel_mono m (enough_fuel m)); [done|].
  unfold get_strongly_connected_components. fold g. rewrite Hkeys. simpl.
  rewrite Hrun, Hloop. by rewrite Hp2, Hp1.
Qed.

Lemma first_component_is_reachable_set_witness :
  ∃ c cs,
    (∀ fuel, enough_fuel chain_mapper ≤ fuel →
       get_strongly_connected_components fuel chain_mapper = Ok (c :: cs)) ∧
    (∀ x, x ∈ c ↔ rtc (edge (dependencies chain_mapper)) "/p/a.c" x).
Proof.
  apply (first_component_is_reachable_set chain_mapper "/p/a.c" ["/p/b.c"]).
  reflexivity.
Defined.

(** The chain A -> B -> C is one component, although no two of its files
    depend on each other. *)
Example chain_mapper_components :
  get_strongly_connected_components 4 chain_mapper = Ok [["/p/a.c"; "/p/b.c"; "/p/c.c"]].
Proof. vm_compute. reflexivity. Qed.

(** X3.  [get_dependency_order] and [get_strongly_connected_components]
    report the same files: a file occurs in the order exactly when it occurs
    in a component. *)
Theorem order_and_components_same_files (m : DependencyMapper) :
  ∃ ord ws cs,
    get_dependency_order (enough_fuel m) m = Ok (ord, ws) ∧
    get_strongly_connected_components (enough_fuel m) m = Ok cs ∧
    (∀ x, x ∈ ord ↔ x ∈ mjoin cs) ∧
    length ord = length (mjoin cs).
Proof.
  destruct (get_dependency_order_spec m (enough_fuel m))
    as (ord & ws & Hrun & Hnd & Hmem & _); [unfold enough_fuel; lia|].
  destruct (components_spec m) as (cs & Hrun' & (Hmem' & Hnd' & Hnode & Hclosed & Hcs) & Hkeys).
  simpl in *.
  assert (∀ x, x ∈ ord ↔ x ∈ mjoin cs) as Hsame.
  { intros x. rewrite Hmem. split.
    - intros [Hx|[a Ha]]; [by apply Hkeys|].
      apply Hmem'. apply (Hclosed a x); [|done].
      apply elem_of_list_to_set, Hkeys. by eapply edge_source_key.
    - intros Hx. apply Hnode. by apply elem_of_list_to_set. }
  exists ord, ws, cs. split_and!; [done|done|done|].
  apply Permutation_length, NoDup_Permutation; done.
Qed.

(** ** More on the mapper *)

Lemma set_add_present v s : v ∈ s → SetDict.set_add v s = s.
Proof. intros Hv. unfold SetDict.set_add. by rewrite decide_True. Qed.

Lemma add_present d k v : v ∈ SetDict.get d k → SetDict.add d k v = d.
Proof.
  unfold SetDict.get. induction d as [|[k' s] d IH]; simpl.
  - by intros ?%elem_of_nil.
  - destruct (decide (k' = k)) as [->|Hne]; simpl.
    + intros Hv. by rewrite set_add_present.
    + intros Hv. by rewrite IH.
Qed.

Lemma add_add d k v : SetDict.add (SetDict.add d k v) k v = SetDict.add d k v.
Proof. apply add_present, elem_of_get_add. by left. Qed.

Section MapperMore.

Variable resolve : string → string.

Lemma add_file_dependency_mono_rev m a b k x :
  x ∈ SetDict.get (reverse_dependencies m) k →
  x ∈ SetDict.get (reverse_dependencies (add_file_dependency resolve m a b)) k.
Proof.
  intros Hx. unfold add_file_dependency. case_decide; [|done]. simpl.
  apply elem_of_get_add. by right.
Qed.

Lemma add_dependencies_mono_rev m src l k x :
  x ∈ SetDict.get (reverse_dependencies m) k →
  x ∈ SetDict.get (reverse_dependencies
        (foldl (λ m d, add_file_dependency resolve m src d) m l)) k.
Proof.
  revert m. induction l as [|d l IH]; intros m Hx; simpl; [done|].
  apply IH. by apply add_file_dependency_mono_rev.
Qed.

Lemma apply_ops_edges_mono m ops k x :
  (x ∈ SetDict.get (dependencies m) k →
   x ∈ SetDict.get (dependencies (apply_ops resolve m ops)) k) ∧
  (x ∈ SetDict.get (reverse_dependencies m) k →
   x ∈ SetDict.get (reverse_dependencies (apply_ops resolve m ops)) k).
Proof.
  revert m. induction ops as [|o ops IH]; intros m; simpl; [done|].
  destruct (IH (apply_op resolve m o)) as [IH1 IH2].
  split; intros Hx; [apply IH1|apply IH2]; destruct o; simpl; try done.
  - by apply add_file_dependency_mono.
  - by apply add_dependencies_mono.
  - by apply add_file_dependency_mono_rev.
  - by apply add_dependencies_mono_rev.
Qed.

Lemma add_file_dependency_file_symbols m a b :
  file_symbols (add_file_dependency resolve m a b) = file_symbols m.
Proof. unfold add_file_dependency. by case_decide. Qed.

Lemma add_dependencies_file_symbols m src l :
  file_symbols (foldl (λ m d, add_file_dependency resolve m src d) m l)
  = file_symbols m.
Proof.
  revert m. induction l as [|d l IH]; intros m; simpl; [done|].
  by rewrite IH, add_file_dependency_file_symbols.
Qed.

Lemma apply_op_symbol_index m o :
  symbol_index_inv m → symbol_index_inv (apply_op resolve m o).
Proof.
  intros Hm. destruct o as [a b|f s|f s]; simpl; unfold symbol_index_inv.
  - by rewrite add_file_dependency_file_symbols, add_file_dependency_symbol_files.
  - simpl. intros f' s'. rewrite !elem_of_get_add, (Hm f' s'). naive_solver.
  - unfold add_symbol_reference.
    by rewrite add_dependencies_file_symbols, add_dependencies_symbol_files.
Qed.

Lemma apply_ops_symbol_index m ops :
  symbol_index_inv m → symbol_index_inv (apply_ops resolve m ops).
Proof.
  revert m. induction ops as [|o ops IH]; intros m Hm; simpl; [done|].
  by apply IH, apply_op_symbol_index.
Qed.

(** An edge that is there already: adding it changes nothing. *)
Lemma add_file_dependency_present m a b :
  resolve b ∈ SetDict.get (dependencies m) (resolve a) →
  resolve a ∈ SetDict.get (reverse_dependencies m) (resolve b) →
  add_file_dependency resolve m a b = m.
Proof.
  intros H1 H2. unfold add_file_dependency. case_decide; [|done].
  rewrite !add_present by done. by destruct m.
Qed.

Lemma add_dependencies_present m src l :
  (∀ d, d ∈ l → resolve src ≠ resolve d →
     resolve d ∈ SetDict.get (dependencies m) (resolve src) ∧
     resolve src ∈ SetDict.get (reverse_dependencies m) (resolve d)) →
  foldl (λ m d, add_file_dependency resolve m src d) m l = m.
Proof.
  induction l as [|d l IH]; intros Hall; simpl; [done|].
  assert (add_file_dependency resolve m src d = m) as ->.
  { destruct (decide (resolve src = resolve d)) as [Heq|Hne].
    - unfold add_file_dependency. by rewrite decide_False by (intros Hn; by apply Hn).
    - destruct (Hall d) as [H1 H2]; [left|done|]. by apply add_file_dependency_present. }
  apply IH. intros d' Hd'. apply Hall. by right.
Qed.

Lemma add_dependencies_adds_both m src l d :
  d ∈ l → resolve src ≠ resolve d →
  let m' := foldl (λ m d, add_file_dependency resolve m src d) m l in
  resolve d ∈ SetDict.get (dependencies m') (resolve src) ∧
  resolve src ∈ SetDict.get (reverse_dependencies m') (resolve d).
Proof.
  revert m. induction l as [|d' l IH]; intros m Hd Hne; [by apply elem_of_nil in Hd|].
  simpl. apply elem_of_cons in Hd as [->|Hd]; [|by apply IH].
  split.
  - apply add_dependencies_mono. unfold add_file_dependency.
    rewrite decide_True by done. simpl. apply elem_of_get_add. by left.
  - apply add_dependencies_mono_rev. unfold add_file_dependency.
    rewrite decide_True by done. simpl. apply elem_of_get_add. by left.
Qed.

End MapperMore.

(** X4.  The symbol index stays consistent: starting from a mapper in
    which [file_symbols] and [symbol_files] are inverse to each other (a new
    mapper is one), they are still inverse after every sequence of calls; and
    right after [add_symbol_definition f s], [get_file_symbols f] contains [s]
    and [get_symbol_files s] contains the canonical form of [f]. *)
Theorem symbol_index_preserved (resolve : string → string)
    (m : DependencyMapper) (ops : list mapper_op) (f s : string) :
  symbol_index_inv m →
  let m' := apply_ops resolve m ops in
  let m2 := add_symbol_definition resolve m' f s in
  symbol_index_inv m' ∧
  (∀ f' s', s' ∈ get_file_symbols resolve m' f' ↔
            resolve f' ∈ get_symbol_files m' s') ∧
  s ∈ get_file_symbols resolve m2 f ∧
  resolve f ∈ get_symbol_files m2 s.
Proof.
  intros Hm m' m2. pose proof (apply_ops_symbol_index resolve m ops Hm) as Hm'.
  split_and!.
  - done.
  - intros f' s'. apply Hm'.
  - unfold get_file_symbols, m2. simpl. apply elem_of_get_add. by left.
  - unfold get_symbol_files, m2. simpl. apply elem_of_get_add. by left.
Qed.

Lemma symbol_index_preserved_witness :
  let m' := apply_ops resolve_canonical new_mapper
              [AddSymbolDefinition "/p/b.c" "f"; AddSymbolReference "/p/a.c" "f"] in
  let m2 := add_symbol_definition resolve_canonical m' "/p/c.c" "g" in
  symbol_index_inv m' ∧
  (∀ f' s', s' ∈ get_file_symbols resolve_canonical m' f' ↔
            resolve_canonical f' ∈ get_symbol_files m' s') ∧
  "g" ∈ get_file_symbols resolve_canonical m2 "/p/c.c" ∧
  resolve_canonical "/p/c.c" ∈ get_symbol_files m2 "g".
Proof.
  apply (symbol_index_preserved resolve_canonical new_mapper
           [AddSymbolDefinition "/p/b.c" "f"; AddSymbolReference "/p/a.c" "f"] "/p/c.c" "g").
  intros f s. simpl. rewrite !get_nil. split; by intros ?%elem_of_nil.
Defined.

(** X5.  An edge is never lost: after [add_file_dependency a b] for two
    different files, and whatever calls follow, [get_file_dependencies a]
    contains the canonical form of [b] and [get_file_dependents b] contains
    the canonical form of [a]. *)
Theorem dependency_edge_persists (resolve : string → string)
    (m : DependencyMapper) (a b : string) (ops : list mapper_op) :
  resolve a ≠ resolve b →
  let m' := apply_ops resolve (add_file_dependency resolve m a b) ops in
  resolve b ∈ get_file_dependencies resolve m' a ∧
  resolve a ∈ get_file_dependents resolve m' b.
Proof.
  intros Hne m'. unfold get_file_dependencies, get_file_dependents, m'.
  split; apply apply_ops_edges_mono; unfold add_file_dependency;
    rewrite decide_True by done; simpl; apply elem_of_get_add; by left.
Qed.

Lemma dependency_edge_persists_witness :
  let m' := apply_ops resolve_canonical
              (add_file_dependency resolve_canonical new_mapper "/p/a.c" "/p/b.c")
              [AddFileDependency "/p/b.c" "/p/a.c"; AddSymbolDefinition "/p/a.c" "f"] in
  resolve_canonical "/p/b.c" ∈ get_file_dependencies resolve_canonical m' "/p/a.c" ∧
  resolve_canonical "/p/a.c" ∈ get_file_dependents resolve_canonical m' "/p/b.c".
Proof.
  apply (dependency_edge_persists resolve_canonical new_mapper "/p/a.c" "/p/b.c").
  discriminate.
Defined.

(** X6.  Each of the three calls, made twice in a row with the same
    arguments, leaves the mapper as the first call left it. *)
Theorem mapper_calls_idempotent (resolve : string → string)
    (m : DependencyMapper) (o : mapper_op) :
  apply_op resolve (apply_op resolve m o) o = apply_op resolve m o.
Proof.
  destruct o as [a b|f s|f s]; simpl.
  - unfold add_file_dependency. case_decide as Hne; [|done].
    simpl. by rewrite !add_add.
  - unfold add_symbol_definition. simpl. by rewrite !add_add.
  - unfold add_symbol_reference.
    rewrite (add_dependencies_symbol_files resolve m (resolve f)).
    apply add_dependencies_present. intros d Hd Hne.
    by apply (add_dependencies_adds_both resolve m (resolve f)).
Qed.

Lemma elem_of_add_dependencies resolve m src l k x :
  x ∈ SetDict.get (dependencies
        (foldl (λ m d, add_file_dependency resolve m src d) m l)) k ↔
  x ∈ SetDict.get (dependencies m) k ∨
  (k = resolve src ∧ ∃ d, d ∈ l ∧ x = resolve d ∧ resolve src ≠ resolve d).
Proof.
  revert m. induction l as [|d l IH]; intros m; simpl.
  - split; [by left|]. intros [?|(_ & d & Hd & _)]; [done|]. by apply elem_of_nil in Hd.
  - rewrite IH. unfold add_file_dependency at 1.
    destruct (decide (resolve src ≠ resolve d)) as [Hne|Heq]; simpl.
    + rewrite elem_of_get_add. split.
      * intros [[[-> ->]|Hx]|(-> & d' & Hd' & -> & Hne')].
        -- right. split; [done|]. exists d. split; [left|done].
        -- by left.
        -- right. split; [done|]. exists d'. split; [by right|done].
      * intros [Hx|(-> & d' & [->|Hd']%elem_of_cons & -> & Hne')].
        -- left. by right.
        -- left. by left.
        -- right. split; [done|]. by exists d'.
    + apply dec_stable in Heq. split.
      * intros [Hx|(-> & d' & Hd' & -> & Hne')]; [by left|].
        right. split; [done|]. exists d'. split; [by right|done].
      * intros [Hx|(-> & d' & [->|Hd']%elem_of_cons & -> & Hne')]; [by left|done|].
        right. split; [done|]. by exists d'.
Qed.

Lemma apply_ops_symbols_canonical resolve m ops :
  (∀ p, resolve (resolve p) = resolve p) →
  symbols_canonical resolve m → symbols_canonical resolve (apply_ops resolve m ops).
Proof.
  intros Hidem. revert m. induction ops as [|o ops IH]; intros m Hm; simpl; [done|].
  apply IH. destruct o as [a b|f s|f s]; simpl; unfold symbols_canonical.
  - by rewrite add_file_dependency_symbol_files.
  - simpl. intros s' d [[-> ->]|Hd]%elem_of_get_add; [done|by eapply Hm].
  - unfold add_symbol_reference. by rewrite add_dependencies_symbol_files.
Qed.

(** X7.  What a reference adds, exactly: after [add_symbol_reference f s]
    the files that [f'] depends on are those it depended on before and, when
    [f'] is the referencing file, the files on record as defining [s], the
    referencing file itself excepted.  So a symbol with several defining
    files gives an edge to each of them, and a symbol that no file defines
    yet gives none: the call leaves the mapper as it was. *)
Theorem reference_adds_exactly_definers (resolve : string → string)
    (m : DependencyMapper) (f s : string) :
  (∀ p, resolve (resolve p) = resolve p) →
  symbols_canonical resolve m →
  let m' := add_symbol_reference resolve m f s in
  (∀ f' x, x ∈ get_file_dependencies resolve m' f' ↔
           x ∈ get_file_dependencies resolve m f' ∨
           (resolve f' = resolve f ∧ x ∈ get_symbol_files m s ∧ x ≠ resolve f)) ∧
  (get_symbol_files m s = [] → m' = m).
Proof.
  intros Hidem Hcan m'. split.
  - intros f' x. unfold get_file_dependencies, m', add_symbol_reference, get_symbol_files.
    rewrite elem_of_add_dependencies, !Hidem. split.
    + intros [Hx|(Hf & d & Hd & -> & Hne)]; [by left|].
      right. rewrite (Hcan s d Hd) in *. split_and!; [done|done|congruence].
    + intros [Hx|(Hf & Hx & Hne)]; [by left|].
      right. split; [done|]. exists x. rewrite (Hcan s x Hx). split_and!; [done|done|congruence].
  - unfold m', add_symbol_reference, get_symbol_files. by intros ->.
Qed.

Lemma reference_adds_exactly_definers_witness :
  let m := apply_ops resolve_canonical new_mapper
             [AddSymbolDefinition "/p/b.c" "f"; AddSymbolDefinition "/p/c.c" "f";
              AddSymbolDefinition "/p/a.c" "f"] in
  let m' := add_symbol_reference resolve_canonical m "/p/a.c" "f" in
  (∀ f' x, x ∈ get_file_dependencies resolve_canonical m' f' ↔
           x ∈ get_file_dependencies resolve_canonical m f' ∨
           (resolve_canonical f' = resolve_canonical "/p/a.c" ∧
            x ∈ get_symbol_files m "f" ∧ x ≠ resolve_canonical "/p/a.c")) ∧
  (get_symbol_files m "f" = [] → m' = m).
Proof.
  apply (reference_adds_exactly_definers resolve_canonical).
  - reflexivity.
  - apply apply_ops_symbols_canonical; [reflexivity|].
    intros s d. simpl. rewrite get_nil. by intros ?%elem_of_nil.
Defined.

(** A symbol defined in three files, referenced from one of them: an edge
    to each of the two others. *)
Example reference_fan_out :
  get_file_dependencies resolve_canonical
    (apply_ops resolve_canonical new_mapper
       [AddSymbolDefinition "/p/b.c" "f"; AddSymbolDefinition "/p/c.c" "f";
        AddSymbolDefinition "/p/a.c" "f"; AddSymbolReference "/p/a.c" "f"])
    "/p/a.c" = ["/p/b.c"; "/p/c.c"].
Proof. vm_compute. reflexivity. Qed.

(** ** More on the symbol table *)

Lemma symbols_get_None d n : symbols_get d n = None ↔ n ∉ d.*1.
Proof.
  induction d as [|[k v] d IH]; simpl.
  - split; [intros _ ?%elem_of_nil|]; done.
  - rewrite not_elem_of_cons. case_decide; subst; [naive_solver|].
    rewrite IH. naive_solver.
Qed.

Lemma symbols_set_new d n v :
  symbols_get d n = None → symbols_set d n v = d ++ [(n, v)].
Proof.
  induction d as [|[k w] d IH]; simpl; [done|].
  case_decide; [done|]. intros Hn. by rewrite IH.
Qed.

Lemma symbols_get_app d n v n' :
  symbols_get (d ++ [(n, v)]) n' =
  match symbols_get d n' with
  | Some x => Some x
  | None => if decide (n = n') then Some v else None
  end.
Proof.
  induction d as [|[k w] d IH]; simpl; [done|].
  destruct (decide (k = n')); [done|]. apply IH.
Qed.

Lemma get_add_symbol t sym n :
  get_symbol (add_symbol t sym) n =
  match get_symbol t n with
  | Some x => Some x
  | None => if decide (name sym = n) then Some sym else None
  end.
Proof.
  unfold get_symbol, add_symbol.
  destruct (symbols_get (symbols t) (name sym)) as [old|] eqn:E; simpl.
  - destruct (symbols_get (symbols t) n) eqn:E'; [done|].
    case_decide; [congruence|done].
  - by rewrite symbols_set_new, symbols_get_app.
Qed.

Lemma add_symbol_wf t sym : table_wf t → table_wf (add_symbol t sym).
Proof.
  intros [Hnd Hall]. unfold add_symbol.
  destruct (symbols_get (symbols t) (name sym)) as [old|] eqn:E; [done|].
  unfold table_wf. simpl. rewrite symbols_set_new by done. split.
  - rewrite fmap_app. apply NoDup_app. split_and!; [done| |apply NoDup_singleton].
    intros x Hx ->%list_elem_of_singleton. by apply symbols_get_None in E.
  - apply Forall_app. split; [done|]. by constructor.
Qed.

Lemma add_symbol_counts t sym :
  length (table_log (add_symbol t sym)) + length (symbols (add_symbol t sym))
  = S (length (table_log t) + length (symbols t)).
Proof.
  unfold add_symbol. destruct (symbols_get (symbols t) (name sym)) eqn:E; simpl.
  - rewrite length_app. simpl. lia.
  - rewrite symbols_set_new by done. rewrite length_app. simpl. lia.
Qed.

Lemma add_symbols_spec t syms :
  table_wf t →
  table_wf (add_symbols t syms) ∧
  (∀ n, get_symbol (add_symbols t syms) n =
        match get_symbol t n with
        | Some x => Some x
        | None => head (filter (λ s, name s = n) syms)
        end) ∧
  length (table_log (add_symbols t syms)) + length (symbols (add_symbols t syms))
  = length syms + (length (table_log t) + length (symbols t)).
Proof.
  unfold add_symbols. revert t. induction syms as [|sym syms IH]; intros t Hwf; simpl.
  - split_and!; [done| |done]. intros n. by destruct (get_symbol t n).
  - destruct (IH (add_symbol t sym) (add_symbol_wf t sym Hwf)) as (Hwf' & Hget & Hlen).
    split_and!; [done| |].
    + intros n. rewrite Hget, get_add_symbol.
      destruct (get_symbol t n); [done|].
      rewrite filter_cons. by case_decide.
    + rewrite Hlen, add_symbol_counts. lia.
Qed.

(** X8.  A symbol whose name is not in the table yet is stored:
    [get_symbol] returns it under its name and answers as before for every
    other name, [get_all_symbols] lists it last, after the symbols that were
    there, and nothing is logged. *)
Theorem add_symbol_new_name (t : SymbolTable) (symbol : Symbol) :
  get_symbol t (name symbol) = None →
  let t' := add_symbol t symbol in
  get_symbol t' (name symbol) = Some symbol ∧
  (∀ n, n ≠ name symbol → get_symbol t' n = get_symbol t n) ∧
  get_all_symbols t' = get_all_symbols t ++ [symbol] ∧
  table_log t' = table_log t.
Proof.
  intros Hnew t'. split_and!.
  - unfold t'. rewrite get_add_symbol, Hnew. by rewrite decide_True.
  - intros n Hn. unfold t'. rewrite get_add_symbol.
    destruct (get_symbol t n); [done|]. by rewrite decide_False.
  - unfold t', get_all_symbols, add_symbol. unfold get_symbol in Hnew. rewrite Hnew.
    simpl. by rewrite symbols_set_new, fmap_app.
  - unfold t', add_symbol. unfold get_symbol in Hnew. by rewrite Hnew.
Qed.

Lemma add_symbol_new_name_witness :
  let symbol := {| name := "count"; kind := "variable"; type_info := "int";
                   scope := "global"; references := [] |} in
  let t' := add_symbol new_table symbol in
  get_symbol t' (name symbol) = Some symbol ∧
  (∀ n, n ≠ name symbol → get_symbol t' n = get_symbol new_table n) ∧
  get_all_symbols t' = get_all_symbols new_table ++ [symbol] ∧
  table_log t' = table_log new_table.
Proof.
  intros symbol. apply (add_symbol_new_name new_table symbol). reflexivity.
Defined.

(** X9.  After any sequence of [add_symbol] calls on a new table,
    [get_symbol n] is the first symbol of the sequence whose name is [n], if
    there is one; the names of the stored symbols are pairwise different;
    every stored symbol is found under its name; and each call either stored
    its symbol or logged one warning. *)
Theorem symbol_table_first_definition_wins (syms : list Symbol) :
  let t := add_symbols new_table syms in
  (∀ n, get_symbol t n = head (filter (λ s, name s = n) syms)) ∧
  NoDup (name <$> get_all_symbols t) ∧
  (∀ s, s ∈ get_all_symbols t → get_symbol t (name s) = Some s) ∧
  length (table_log t) + length (get_all_symbols t) = length syms.
Proof.
  intros t.
  assert (table_wf new_table) as Hwf0 by (split; constructor).
  destruct (add_symbols_spec new_table syms Hwf0) as ([Hnd Hall] & Hget & Hlen).
  fold t in Hnd, Hall, Hget, Hlen.
  assert ((symbols t).*1 = name <$> (symbols t).*2) as Hnames.
  { clear -Hall. revert Hall. generalize (symbols t). intros l Hall.
    induction Hall as [|[k v] l Hkv Hall IH]; [done|].
    rewrite !fmap_cons, IH. simpl in *. by rewrite Hkv. }
  split_and!.
  - intros n. by rewrite Hget.
  - unfold get_all_symbols. by rewrite <- Hnames.
  - intros s Hs. unfold get_all_symbols in Hs. unfold get_symbol.
    apply list_elem_of_fmap in Hs as ([k v] & -> & Hkv). simpl.
    rewrite Forall_forall in Hall. specialize (Hall _ Hkv). simpl in Hall. subst k.
    clear -Hnd Hkv. revert Hnd Hkv. generalize (symbols t). intros d.
    induction d as [|[k w] d IH]; intros Hnd Hkv; [by apply elem_of_nil in Hkv|].
    simpl in *. apply NoDup_cons in Hnd as [Hk Hnd].
    apply elem_of_cons in Hkv as [[= <- <-]|Hkv]; [by rewrite decide_True|].
    rewrite decide_False; [by apply IH|].
    intros ->. apply Hk. apply list_elem_of_fmap. by exists (name v, v).
  - unfold get_all_symbols. rewrite length_fmap. simpl in Hlen. lia.
Qed.

(** ** More on the preprocessor: what a call leaves alone *)

Lemma frame_refl st : frame st st.
Proof. split_and!; [done|done|done|]. exists []. by rewrite app_nil_r. Qed.

Lemma frame_trans st1 st2 st3 : frame st1 st2 → frame st2 st3 → frame st1 st3.
Proof.
  intros (Hm1 & Hp1 & Hs1 & l1 & Hl1) (Hm2 & Hp2 & Hs2 & l2 & Hl2). split_and!.
  - congruence.
  - congruence.
  - set_solver.
  - exists (l1 ++ l2). by rewrite Hl2, Hl1, app_assoc.
Qed.

Lemma framed_ret {A : Type} (a : A) : framed (ret a).
Proof. intros st. apply frame_refl. Qed.

Lemma framed_raise {A : Type} e : framed (@raise A e).
Proof. intros st. apply frame_refl. Qed.

Lemma framed_bind {A B : Type} (m : M A) (k : A → M B) :
  framed m → (∀ a, framed (k a)) → framed (bind m k).
Proof.
  intros Hm Hk st. unfold bind. specialize (Hm st).
  destruct (m st) as [[a|e|] st']; simpl in *; [|done|done].
  eapply frame_trans; [exact Hm|apply Hk].
Qed.

Lemma framed_attempt {A : Type} (m : M A) : framed m → framed (attempt m).
Proof.
  intros Hm st. unfold attempt. specialize (Hm st).
  by destruct (m st) as [[a|e|] st'].
Qed.

Lemma framed_log r : framed (log_record_add r).
Proof. intros st. split_and!; [done|done|done|]. by exists [r]. Qed.

Lemma framed_mark p : framed (mark_processed p).
Proof.
  intros st. split_and!; [done|done|simpl; set_solver|]. exists []. simpl.
  by rewrite app_nil_r.
Qed.

Section PreprocessorMore.

Variable fs : string → fs_entry.
Variable path_join : string → string → string.
Variable re_template : string → option (string → string).

Lemma framed_read_file path : framed (read_file fs path).
Proof. unfold read_file. destruct (fs path); auto using @framed_ret, @framed_raise. Qed.

Lemma framed_path_exists path : framed (path_exists fs path).
Proof. unfold path_exists. destruct (fs path); auto using @framed_ret, @framed_raise. Qed.

Lemma framed_expand_macros source : framed (_expand_macros re_template source).
Proof. intros st. apply frame_refl. Qed.

Lemma framed_search_include rec include_path whole dirs :
  (∀ s f, framed (rec s f)) →
  framed (search_include fs path_join rec include_path whole dirs).
Proof.
  intros Hrec. induction dirs as [|d dirs IH]; simpl.
  - apply framed_bind; [apply framed_log|]. intros _. apply framed_ret.
  - apply framed_bind; [apply framed_path_exists|]. intros [|]; [|done].
    apply framed_bind.
    + apply framed_attempt, framed_bind; [apply framed_read_file|]. intros c. apply Hrec.
    + intros [e|text]; [|apply framed_ret].
      apply framed_bind; [apply framed_log|]. by intros _.
Qed.

Lemma framed_replace_include rec include_path whole :
  (∀ s f, framed (rec s f)) →
  framed (replace_include fs path_join rec include_path whole).
Proof.
  intros Hrec. unfold replace_include. apply framed_bind; [intros st; apply frame_refl|].
  intros st. case_decide; [apply framed_ret|].
  apply framed_bind; [apply framed_mark|]. intros _. by apply framed_search_include.
Qed.

Lemma framed_include_scan repl skip s :
  (∀ p w, framed (repl p w)) → framed (include_scan repl skip s).
Proof.
  intros Hrepl. revert skip. induction s as [|c s IH]; intros skip; simpl.
  - apply framed_ret.
  - destruct skip as [|k]; [|apply IH].
    destruct (match_include (String c s)) as [[spec len]|].
    + apply framed_bind; [apply Hrepl|]. intros r.
      apply framed_bind; [apply IH|]. intros rest. apply framed_ret.
    + apply framed_bind; [apply IH|]. intros rest. apply framed_ret.
Qed.

Lemma framed_process_source fuel source file :
  framed (process_source fs path_join re_template fuel source file).
Proof.
  revert source file. induction fuel as [|fuel IH]; intros source file; simpl.
  - intros st. apply frame_refl.
  - apply framed_bind.
    + unfold _process_includes. apply framed_include_scan. intros p w.
      by apply framed_replace_include.
    + intros s1. apply framed_bind; [apply framed_expand_macros|].
      intros s2. apply framed_ret.
Qed.

Lemma framed_process_file fuel file_path :
  framed (process_file fs path_join re_template fuel file_path).
Proof.
  unfold process_file. apply framed_bind.
  - apply framed_attempt, framed_read_file.
  - intros [e|source].
    + apply framed_bind; [apply framed_log|]. intros _. apply framed_raise.
    + apply framed_bind; [apply framed_attempt, framed_process_source|].
      intros [e|text]; [|apply framed_ret].
      apply framed_bind; [apply framed_log|]. intros _. apply framed_ret.
Qed.

(** The loop of [replace_include] raises only where [exists] does. *)
Lemma search_include_raise rec include_path whole dirs st e :
  (search_include fs path_join rec include_path whole dirs st).1 = Raise e →
  ∃ d, d ∈ dirs ∧ fs (path_join d include_path) = Inaccessible ∧
       e = OSError (path_join d include_path).
Proof.
  revert st. induction dirs as [|d dirs IH]; intros st; simpl; [done|].
  unfold bind at 1, path_exists.
  destruct (fs (path_join d include_path)) as [| |content|] eqn:E; simpl.
  - intros (d' & Hd' & H)%IH. exists d'. split; [by right|done].
  - unfold bind at 1, attempt, read_file. rewrite E. simpl.
    unfold bind at 1. simpl.
    intros (d' & Hd' & H)%IH. exists d'. split; [by right|done].
  - unfold bind at 1, attempt, bind at 1, read_file. rewrite E. simpl.
    destruct (rec content _ _) as [[text|e'|] st1]; simpl; [done| |done].
    unfold bind at 1. simpl.
    intros (d' & Hd' & H)%IH. exists d'. split; [by right|done].
  - intros [= <-]. exists d. split; [left|done].
Qed.

Lemma replace_include_raise rec include_path whole st e :
  (replace_include fs path_join rec include_path whole st).1 = Raise e →
  ∃ d, d ∈ include_paths st ∧ fs (path_join d include_path) = Inaccessible ∧
       e = OSError (path_join d include_path).
Proof.
  unfold replace_include, bind, get_state. case_decide; [done|]. simpl.
  apply search_include_raise.
Qed.

Lemma include_scan_raise rec skip s st e :
  (∀ source file, framed (rec source file)) →
  (include_scan (replace_include fs path_join rec) skip s st).1 = Raise e →
  ∃ d spec, d ∈ include_paths st ∧ spec ∈ include_specs skip s ∧
            fs (path_join d spec) = Inaccessible ∧ e = OSError (path_join d spec).
Proof.
  intros Hrec. revert skip st. induction s as [|c s IH]; intros skip st; simpl; [done|].
  destruct skip as [|k]; [|apply IH].
  destruct (match_include (String c s)) as [[spec len]|].
  - unfold bind at 1.
    pose proof (framed_replace_include rec spec (string_take len (String c s)) Hrec st)
      as Hframe.
    destruct (replace_include _ _ _ _ _ st) as [[r|e'|] st1] eqn:E1; simpl; [| |done].
    + unfold bind at 1.
      destruct (include_scan _ (len - 1) s st1) as [[rest|e'|] st2] eqn:E2;
        simpl; [done| |done].
      intros [= <-]. destruct (IH (len - 1) st1) as (d & spec' & Hd & Hs & H).
      { by rewrite E2. }
      exists d, spec'. destruct Hframe as (_ & <- & _). split_and!; [done|by right|apply H|apply H].
    + intros [= <-].
      destruct (replace_include_raise rec spec (string_take len (String c s)) st e')
        as (d & Hd & H); [by rewrite E1|].
      exists d, spec. split_and!; [done|left|apply H|apply H].
  - unfold bind at 1.
    destruct (include_scan _ 0 s st) as [[rest|e'|] st2] eqn:E2; simpl; [done| |done].
    intros [= <-]. apply (IH 0 st). by rewrite E2.
Qed.

Lemma expand_macros_raise ms source e :
  for_each (λ '(macro_name, macro_value) source,
              re_sub_word re_template macro_name macro_value source)
           ms source = Raise e →
  ∃ n v, (n, v) ∈ ms ∧ re_template v = None ∧ e = ReError v.
Proof.
  revert source. induction ms as [|[n v] ms IH]; intros source; simpl; [done|].
  unfold re_sub_word at 1. destruct (re_template v) as [t|] eqn:E.
  - intros (n' & v' & Hin & H)%IH. exists n', v'. split; [by right|done].
  - intros [= <-]. exists n, v. split; [left|done].
Qed.

(** The search of [replace_include] when no directory holds a readable
    file. *)
Lemma search_include_nothing_readable rec include_path whole dirs st :
  (∀ d content, d ∈ dirs → fs (path_join d include_path) ≠ File content) →
  (∀ d, d ∈ dirs → fs (path_join d include_path) ≠ Inaccessible) →
  search_include fs path_join rec include_path whole dirs st =
    (Ok whole,
     add_log (unreadable_warnings fs path_join include_path dirs
              ++ [(WARNING, IncludeNotFound include_path)]) st).
Proof.
  revert st. induction dirs as [|d dirs IH]; intros st Hall Hstat; [done|].
  simpl. unfold bind at 1, path_exists, unreadable_warnings. simpl.
  destruct (fs (path_join d include_path)) as [| |content|] eqn:E; simpl.
  - rewrite IH; [done| |].
    + intros d' c Hd'. apply Hall. by right.
    + intros d' Hd'. apply Hstat. by right.
  - unfold bind at 1, attempt, read_file. rewrite E. simpl.
    unfold bind at 1. simpl. rewrite IH.
    + unfold add_log. simpl. by rewrite <- app_assoc.
    + intros d' c Hd'. apply Hall. by right.
    + intros d' Hd'. apply Hstat. by right.
  - destruct (Hall d content); [left|done].
  - destruct (Hstat d); [left|done].
Qed.

(** The search of [replace_include] up to the first directory that holds a
    readable file. *)
Lemma search_include_first_readable rec include_path whole before dir after
    content st :
  (∀ d c, d ∈ before → fs (path_join d include_path) ≠ File c) →
  (∀ d, d ∈ before → fs (path_join d include_path) ≠ Inaccessible) →
  fs (path_join dir include_path) = File content →
  search_include fs path_join rec include_path whole (before ++ dir :: after) st =
    bind (attempt (rec content (path_join dir include_path)))
      (λ r, match r with
            | inr text => ret text
            | inl e =>
                bind (log_record_add (WARNING, IncludeError include_path e))
                  (λ _, search_include fs path_join rec include_path whole after)
            end)
      (add_log (unreadable_warnings fs path_join include_path before) st).
Proof.
  intros Hbefore Hstat Hfile. revert st.
  induction before as [|d before IH]; intros st.
  - simpl. unfold bind at 1, path_exists. rewrite Hfile. simpl.
    unfold add_log, unreadable_warnings. simpl. rewrite app_nil_r.
    unfold bind, attempt, read_file, ret. rewrite Hfile. by destruct st.
  - simpl. unfold bind at 1, path_exists, unreadable_warnings. simpl.
    destruct (fs (path_join d include_path)) as [| |c|] eqn:E; simpl.
    + rewrite IH; [done| |].
      * intros d' c Hd'. apply Hbefore. by right.
      * intros d' Hd'. apply Hstat. by right.
    + unfold bind at 1, attempt at 1, read_file at 1. rewrite E. simpl.
      unfold bind at 1. simpl. rewrite IH.
      * unfold add_log. simpl. by rewrite <- app_assoc.
      * intros d' c Hd'. apply Hbefore. by right.
      * intros d' Hd'. apply Hstat. by right.
    + destruct (Hbefore d c); [left|done].
    + destruct (Hstat d); [left|done].
Qed.

End PreprocessorMore.

(** X10.  Processing never touches the configuration: [process_source] and
    [process_file] leave the macros and the include path as they were, remove
    nothing from [processed_includes], and only append to the log, whether
    they return or raise. *)
Theorem processing_keeps_configuration
    (fs : string → fs_entry) (path_join : string → string → string)
    (re_template : string → option (string → string))
    (fuel : nat) (text file_path : string) (st : CPreprocessor) :
  frame st (process_source fs path_join re_template fuel text file_path st).2 ∧
  frame st (process_file fs path_join re_template fuel file_path st).2.
Proof.
  split; [apply framed_process_source|apply framed_process_file].
Qed.

(** X11.  An include that no directory of the include path can supply (in
    each directory [exists] returns and the file is missing or cannot be
    read) is left in the text as it was written.  The spec is put on record
    all the same; a warning is logged for each directory in which the file
    exists but could not be read, and a last one says that the file was not
    found. *)
Theorem include_without_readable_file
    (fs : string → fs_entry) (path_join : string → string → string)
    (rec : string → string → M string)
    (include_path whole_match : string) (st : CPreprocessor) :
  include_path ∉ processed_includes st →
  (∀ d content, d ∈ include_paths st →
     fs (path_join d include_path) ≠ File content) →
  (∀ d, d ∈ include_paths st → fs (path_join d include_path) ≠ Inaccessible) →
  replace_include fs path_join rec include_path whole_match st =
    (Ok whole_match,
     add_log (unreadable_warnings fs path_join include_path (include_paths st)
              ++ [(WARNING, IncludeNotFound include_path)])
       (record_include include_path st)).
Proof.
  intros Hnew Hnone Hstat. unfold replace_include, bind, get_state.
  rewrite decide_False by done. simpl.
  by rewrite search_include_nothing_readable.
Qed.

Lemma include_without_readable_file_witness :
  let st := add_include_path "inc" (add_include_path "sys" new_preprocessor) in
  replace_include demo_fs demo_join
    (process_source demo_fs demo_join plain_template_only 2)
    "stdio.h" "#include <stdio.h>" st =
    (Ok "#include <stdio.h>",
     add_log (unreadable_warnings demo_fs demo_join "stdio.h" (include_paths st)
              ++ [(WARNING, IncludeNotFound "stdio.h")])
       (record_include "stdio.h" st)).
Proof.
  apply (include_without_readable_file demo_fs demo_join).
  - vm_compute. set_solver.
  - intros d content Hd. vm_compute in Hd.
    apply elem_of_cons in Hd as [->|Hd]; [vm_compute; discriminate|].
    apply list_elem_of_singleton in Hd as ->. vm_compute. discriminate.
  - intros d Hd. vm_compute in Hd.
    apply elem_of_cons in Hd as [->|Hd]; [vm_compute; discriminate|].
    apply list_elem_of_singleton in Hd as ->. vm_compute. discriminate.
Defined.

(** X12.  The include path is searched in order: when in the directories
    [before] [exists] returns and the file is missing or unreadable, and the
    file is readable in [dir], the
    directive expands to what processing the content found in [dir] returns,
    whatever the directories after [dir] hold.  If processing that content
    raises, the exception is logged as a warning and the search goes on with
    the directories after [dir]. *)
Theorem include_search_order
    (fs : string → fs_entry) (path_join : string → string → string)
    (rec : string → string → M string)
    (include_path whole_match content dir : string) (before after : list string)
    (st : CPreprocessor) :
  include_path ∉ processed_includes st →
  include_paths st = before ++ dir :: after →
  (∀ d c, d ∈ before → fs (path_join d include_path) ≠ File c) →
  (∀ d, d ∈ before → fs (path_join d include_path) ≠ Inaccessible) →
  fs (path_join dir include_path) = File content →
  let st1 := add_log (unreadable_warnings fs path_join include_path before)
               (record_include include_path st) in
  (∀ text st2,
     rec content (path_join dir include_path) st1 = (Ok text, st2) →
     replace_include fs path_join rec include_path whole_match st = (Ok text, st2)) ∧
  (∀ e st2,
     rec content (path_join dir include_path) st1 = (Raise e, st2) →
     replace_include fs path_join rec include_path whole_match st =
       search_include fs path_join rec include_path whole_match after
         (add_log [(WARNING, IncludeError include_path e)] st2)).
Proof.
  intros Hnew Hpaths Hbefore Hstat Hfile st1.
  assert (replace_include fs path_join rec include_path whole_match st =
          search_include fs path_join rec include_path whole_match
            (before ++ dir :: after) (record_include include_path st)) as Heq.
  { unfold replace_include, bind, get_state. rewrite decide_False by done.
    simpl. unfold record_include. by rewrite Hpaths. }
  rewrite Heq, (search_include_first_readable fs path_join rec include_path
                  whole_match before dir after content) by done.
  fold st1. split.
  - intros text st2 Hrun. unfold bind, attempt. by rewrite Hrun.
  - intros e st2 Hrun. unfold bind at 1, attempt. rewrite Hrun.
    unfold bind, log_record_add. simpl. done.
Qed.

Lemma include_search_order_witness :
  let st := add_include_path "inc" (add_include_path "sys" new_preprocessor) in
  let rec := process_source demo_fs demo_join plain_template_only 2 in
  let content := join_lines ["int x;"; "#include <defs.h>"] in
  let st1 := add_log (unreadable_warnings demo_fs demo_join "defs.h" ["sys"])
               (record_include "defs.h" st) in
  (∀ text st2,
     rec content (demo_join "inc" "defs.h") st1 = (Ok text, st2) →
     replace_include demo_fs demo_join rec "defs.h" "#include <defs.h>" st
       = (Ok text, st2)) ∧
  (∀ e st2,
     rec content (demo_join "inc" "defs.h") st1 = (Raise e, st2) →
     replace_include demo_fs demo_join rec "defs.h" "#include <defs.h>" st =
       search_include demo_fs demo_join rec "defs.h" "#include <defs.h>" []
         (add_log [(WARNING, IncludeError "defs.h" e)] st2)).
Proof.
  intros st rec content.
  apply (include_search_order demo_fs demo_join rec "defs.h" "#include <defs.h>"
           content "inc" ["sys"] [] st).
  - vm_compute. set_solver.
  - reflexivity.
  - intros d c Hd. apply list_elem_of_singleton in Hd as ->. vm_compute. discriminate.
  - intros d Hd. apply list_elem_of_singleton in Hd as ->. vm_compute. discriminate.
  - reflexivity.
Defined.

(** X13.  When the file can be read, [process_file] does not raise: it
    returns what [process_source] returns for the content of the file, and if
    [process_source] raises, it logs the error and returns the content as it
    was read. *)
Theorem process_file_readable
    (fs : string → fs_entry) (path_join : string → string → string)
    (re_template : string → option (string → string))
    (fuel : nat) (file_path content : string) (st : CPreprocessor) :
  fs file_path = File content →
  let run := process_source fs path_join re_template fuel content file_path st in
  (∀ e, (process_file fs path_join re_template fuel file_path st).1 ≠ Raise e) ∧
  (∀ text st1, run = (Ok text, st1) →
     process_file fs path_join re_template fuel file_path st = (Ok text, st1)) ∧
  (∀ e st1, run = (Raise e, st1) →
     process_file fs path_join re_template fuel file_path st =
       (Ok content, add_log [(ERROR, FileError file_path e)] st1)).
Proof.
  intros Hfile run.
  unfold process_file, bind, attempt, read_file, ret, log_record_add, add_log.
  rewrite Hfile. fold run. split_and!.
  - intros e. by destruct run as [[text|e'|] st1].
  - by intros text st1 ->.
  - by intros e st1 ->.
Qed.

Lemma process_file_readable_witness :
  let st := define_macro "x" "\1" (add_include_path "inc" new_preprocessor) in
  let run := process_source demo_fs demo_join plain_template_only 3
               (join_lines ["int x;"; "#include <defs.h>"]) "inc/defs.h" st in
  (∀ e, (process_file demo_fs demo_join plain_template_only 3 "inc/defs.h" st).1
        ≠ Raise e) ∧
  (∀ text st1, run = (Ok text, st1) →
     process_file demo_fs demo_join plain_template_only 3 "inc/defs.h" st
       = (Ok text, st1)) ∧
  (∀ e st1, run = (Raise e, st1) →
     process_file demo_fs demo_join plain_template_only 3 "inc/defs.h" st =
       (Ok (join_lines ["int x;"; "#include <defs.h>"]),
        add_log [(ERROR, FileError "inc/defs.h" e)] st1)).
Proof.
  apply (process_file_readable demo_fs demo_join plain_template_only 3 "inc/defs.h").
  reflexivity.
Defined.

(** A macro value that [re] rejects: processing raises, and [process_file]
    returns the text of the file unprocessed. *)
Example process_file_rejected_macro :
  let st := define_macro "x" "\1" (add_include_path "inc" new_preprocessor) in
  (process_file demo_fs demo_join plain_template_only 3 "inc/defs.h" st).1
  = Ok (join_lines ["int x;"; "#include <defs.h>"]).
Proof. vm_compute. reflexivity. Qed.

(** X14.  [process_source] raises for two reasons only.  One is a macro
    value that [re.sub] rejects as a replacement.  The other is [exists]
    raising [OSError] for an include spec of the text itself under a
    directory of the include path: that call stands outside the [try] of
    [replace_include].  What goes wrong under an include (the file cannot be
    read, processing its content raises) is caught and logged.  So when every
    macro value is accepted and [exists] raises for no path, the call does
    not raise. *)
Theorem process_source_raise_causes
    (fs : string → fs_entry) (path_join : string → string → string)
    (re_template : string → option (string → string))
    (fuel : nat) (source current_file : string) (st : CPreprocessor) (e : exn) :
  (process_source fs path_join re_template fuel source current_file st).1 = Raise e →
  (∃ n v, (n, v) ∈ macros st ∧ re_template v = None ∧ e = ReError v) ∨
  (∃ d spec, d ∈ include_paths st ∧ spec ∈ include_specs 0 source ∧
             fs (path_join d spec) = Inaccessible ∧ e = OSError (path_join d spec)).
Proof.
  destruct fuel as [|fuel]; [done|]. simpl. unfold bind at 1, _process_includes.
  pose proof (framed_include_scan
                (replace_include fs path_join (process_source fs path_join re_template fuel))
                0 source
                (λ p w, framed_replace_include fs path_join _ p w
                          (framed_process_source fs path_join re_template fuel)) st)
    as Hframe.
  pose proof (include_scan_raise fs path_join
                (process_source fs path_join re_template fuel) 0 source st)
    as Hscan.
  destruct (include_scan _ 0 source st) as [[s1|e1|] st1]; simpl in *; [| |done].
  - destruct Hframe as (Hm & _). unfold bind, _expand_macros. rewrite Hm.
    destruct (for_each _ (macros st) s1) as [text|e'|] eqn:E; simpl; [done| |done].
    intros [= <-]. left. by apply (expand_macros_raise re_template (macros st) s1).
  - intros [= <-]. right. apply Hscan; [|done].
    apply framed_process_source.
Qed.

Lemma process_source_raise_causes_witness :
  let fs := λ path, if decide (path = "inc/defs.h") then Inaccessible else Missing in
  let st := add_include_path "inc" new_preprocessor in
  (process_source fs demo_join plain_template_only 3 demo_source "main.c" st).1
    = Raise (OSError "inc/defs.h") ∧
  ((∃ n v, (n, v) ∈ macros st ∧ plain_template_only v = None
           ∧ OSError "inc/defs.h" = ReError v) ∨
   (∃ d spec, d ∈ include_paths st ∧ spec ∈ include_specs 0 demo_source ∧
              fs (demo_join d spec) = Inaccessible ∧
              OSError "inc/defs.h" = OSError (demo_join d spec))).
Proof.
  intros fs st. split; [vm_compute; reflexivity|].
  apply (process_source_raise_causes fs demo_join plain_template_only 3 demo_source
           "main.c" st (OSError "inc/defs.h")).
  vm_compute. reflexivity.
Defined.

(** ** Text without directives *)

Lemma hash_free_rev_app s acc :
  hash_free (String.rev_app s acc) = hash_free s && hash_free acc.
Proof.
  revert acc. induction s as [|c s IH]; intros acc; simpl; [done|].
  rewrite IH. simpl. by destruct (bool_decide (c = "#"%char)), (hash_free s).
Qed.

Lemma hash_free_rev s : hash_free (String.rev s) = hash_free s.
Proof. unfold String.rev. rewrite hash_free_rev_app. simpl. apply andb_true_r. Qed.

Lemma hash_free_drop_while f s :
  hash_free s = true → hash_free (drop_while f s) = true.
Proof.
  induction s as [|c s IH]; simpl; [done|].
  intros [Hc Hs]%andb_true_iff. destruct (f c); [by apply IH|].
  simpl. by rewrite Hc, Hs.
Qed.

Lemma hash_free_strip s : hash_free s = true → hash_free (strip s) = true.
Proof.
  intros Hs. unfold strip. rewrite hash_free_rev. apply hash_free_drop_while.
  rewrite hash_free_rev. by apply hash_free_drop_while.
Qed.

Lemma hash_free_starts_conditional line :
  hash_free line = true → starts_conditional line = false.
Proof.
  intros Hs%hash_free_strip. unfold starts_conditional.
  destruct (strip line) as [|c t]; [done|].
  simpl in Hs. apply andb_true_iff in Hs as [Hc _].
  apply negb_true_iff, bool_decide_eq_false in Hc.
  cbn [existsb startswith].
  destruct (Ascii.eqb_spec "#" c) as [<-|_]; [done|done].
Qed.

Lemma hash_free_split_lines s :
  hash_free s = true → Forall (λ l, hash_free l = true) (split_lines s).
Proof.
  induction s as [|c s IH]; simpl; [by repeat constructor|].
  intros [Hc Hs]%andb_true_iff. specialize (IH Hs).
  destruct (decide (c = newline)); [by constructor|].
  destruct (split_lines s) as [|l ls]; [by repeat constructor; simpl; rewrite Hc|].
  apply Forall_cons in IH as [Hl Hls]. constructor; [|done]. simpl. by rewrite Hc, Hl.
Qed.

Lemma hash_free_match_include s : hash_free s = true → match_include s = None.
Proof.
  destruct s as [|c s]; [done|]. simpl. intros [Hc _]%andb_true_iff.
  apply negb_true_iff, bool_decide_eq_false in Hc.
  unfold match_include. simpl. by rewrite decide_False by (intros <-; done).
Qed.

Lemma hash_free_include_scan repl s st :
  hash_free s = true → include_scan repl 0 s st = (Ok s, st).
Proof.
  induction s as [|c s IH]; [done|]. intros Hs.
  cbn [include_scan]. rewrite hash_free_match_include by done.
  simpl in Hs. apply andb_true_iff in Hs as [_ Hs].
  unfold bind. by rewrite IH.
Qed.

(** X15.  A preprocessor without macros returns a text without [#]
    unchanged, for every recursion bound but zero, and is itself left
    unchanged: nothing is put on record and nothing is logged. *)
Theorem directive_free_text_unchanged
    (fs : string → fs_entry) (path_join : string → string → string)
    (re_template : string → option (string → string))
    (fuel : nat) (source current_file : string) (st : CPreprocessor) :
  macros st = [] →
  hash_free source = true →
  process_source fs path_join re_template (S fuel) source current_file st
    = (Ok source, st).
Proof.
  intros Hm Hs. simpl. unfold _process_includes, bind.
  rewrite hash_free_include_scan by done.
  unfold _expand_macros. rewrite Hm. simpl.
  unfold _process_conditionals, ret.
  rewrite <- (app_nil_r (split_lines source)), conditional_loop_pass.
  - simpl. by rewrite join_split_lines.
  - eapply Forall_impl; [by apply hash_free_split_lines|].
    intros l. apply hash_free_starts_conditional.
Qed.

Lemma directive_free_text_unchanged_witness :
  process_source demo_fs demo_join plain_template_only 1
    (join_lines ["int main(void) {"; "  return 0;"; "}"]) "main.c"
    (add_include_path "inc" new_preprocessor)
  = (Ok (join_lines ["int main(void) {"; "  return 0;"; "}"]),
     add_include_path "inc" new_preprocessor).
Proof.
  apply (directive_free_text_unchanged demo_fs demo_join plain_template_only 0);
    reflexivity.
Defined.

(** ** The conditional pass, as a whole *)

Lemma conditional_loop_sublist lines b :
  conditional_loop lines [] b `sublist_of` lines.
Proof.
  revert b. induction lines as [|l lines IH]; intros b; simpl; [constructor|].
  destruct b.
  - destruct (is_endif l); by apply sublist_cons.
  - destruct (starts_conditional l); [by apply sublist_cons|].
    rewrite conditional_loop_acc. simpl. by apply sublist_skip.
Qed.

Lemma conditional_loop_Forall (P : string → Prop) lines b :
  Forall P lines → Forall P (conditional_loop lines [] b).
Proof.
  intros Hall. revert b. induction Hall as [|l lines Hl Hall IH]; intros b; simpl; [done|].
  destruct b.
  - by destruct (is_endif l).
  - destruct (starts_conditional l); [done|].
    rewrite conditional_loop_acc. simpl. by constructor.
Qed.

Lemma conditional_loop_no_start lines b :
  Forall (λ l, starts_conditional l = false) (conditional_loop lines [] b).
Proof.
  revert b. induction lines as [|l lines IH]; intros b; simpl; [done|].
  destruct b.
  - by destruct (is_endif l).
  - destruct (starts_conditional l) eqn:E; [done|].
    rewrite conditional_loop_acc. simpl. by constructor.
Qed.

Lemma split_lines_newline_free s :
  Forall (λ l, newline_free l = true) (split_lines s).
Proof.
  induction s as [|c s IH]; simpl; [by repeat constructor|].
  destruct (decide (c = newline)) as [->|Hc]; [by constructor|].
  destruct (split_lines s) as [|l ls]; simpl.
  - repeat constructor. simpl. by rewrite bool_decide_eq_false_2.
  - apply Forall_cons in IH as [Hl Hls]. constructor; [|done].
    simpl. by rewrite bool_decide_eq_false_2.
Qed.

Lemma split_lines_single l : newline_free l = true → split_lines l = [l].
Proof.
  induction l as [|c l IH]; simpl; [done|].
  intros [Hc Hl]%andb_true_iff.
  apply negb_true_iff, bool_decide_eq_false in Hc.
  rewrite decide_False by done. by rewrite IH.
Qed.

Lemma split_lines_app_newline l rest :
  newline_free l = true →
  split_lines (l +:+ String newline rest) = l :: split_lines rest.
Proof.
  induction l as [|c l IH]; intros Hl.
  - change (split_lines (String newline rest) = EmptyString :: split_lines rest).
    simpl. by rewrite ?decide_True.
  - simpl in Hl. apply andb_true_iff in Hl as [Hc Hl].
    apply negb_true_iff, bool_decide_eq_false in Hc.
    change (split_lines (String c (l +:+ String newline rest))
            = String c l :: split_lines rest).
    simpl. rewrite decide_False by done. by rewrite IH.
Qed.

Lemma split_join_lines ls :
  ls ≠ [] → Forall (λ l, newline_free l = true) ls →
  split_lines (join_lines ls) = ls.
Proof.
  intros Hne Hall. induction Hall as [|l ls Hl Hall IH]; [done|].
  destruct ls as [|l' ls].
  - simpl. by apply split_lines_single.
  - change (split_lines (l +:+ String newline (join_lines (l' :: ls))) = l :: l' :: ls).
    rewrite split_lines_app_newline by done. by rewrite IH.
Qed.

(** X16.  The conditional pass keeps a subsequence of the lines of the
    text, in their order and unchanged; no line that it keeps starts a
    conditional; and applying it to its own result changes nothing. *)
Theorem conditional_pass_idempotent (source : string) (st : CPreprocessor) :
  let kept := conditional_loop (split_lines source) [] false in
  _process_conditionals source st = (Ok (join_lines kept), st) ∧
  kept `sublist_of` split_lines source ∧
  Forall (λ l, starts_conditional l = false) kept ∧
  _process_conditionals (join_lines kept) st = (Ok (join_lines kept), st).
Proof.
  intros kept. split_and!.
  - done.
  - apply conditional_loop_sublist.
  - apply conditional_loop_no_start.
  - unfold _process_conditionals, ret. f_equal. f_equal.
    destruct kept as [|l ls] eqn:E; [done|].
    rewrite split_join_lines; [|done|].
    + rewrite <- (app_nil_r (l :: ls)) at 1.
      rewrite conditional_loop_pass; [done|].
      rewrite <- E. apply conditional_loop_no_start.
    + rewrite <- E. apply conditional_loop_Forall, split_lines_newline_free.
Qed.

(** ** Macro substitution, word by word *)

Lemma strip_prefix_app p r : strip_prefix p (p +:+ r) = Some r.
Proof.
  induction p as [|a p IH]; [done|].
  change (strip_prefix (String a p) (String a (p +:+ r)) = Some r).
  simpl. by rewrite decide_True.
Qed.

Lemma strip_prefix_app_cases name w rest r :
  strip_prefix name (w +:+ rest) = Some r →
  (∃ w', w = name +:+ w' ∧ r = w' +:+ rest) ∨
  (∃ n', name = w +:+ n' ∧ n' ≠ EmptyString ∧ strip_prefix n' rest = Some r).
Proof.
  revert w. induction name as [|a name IH]; intros w.
  - simpl. intros [= <-]. left. by exists w.
  - destruct w as [|b w].
    + intros Hr. right. exists (String a name). done.
    + intros Hr.
      change (strip_prefix (String a name) (String b (w +:+ rest)) = Some r) in Hr.
      simpl in Hr. case_decide as Hab; [|done]. subst b.
      destruct (IH w Hr) as [(w' & -> & ->)|(n' & -> & Hn' & Hr')].
      * left. by exists w'.
      * right. by exists n'.
Qed.

Lemma sub_scan_skip name repl a prev rest :
  sub_scan name repl prev (String.length a) (a +:+ rest)
  = sub_scan name repl (last_char prev a) 0 rest.
Proof.
  revert prev. induction a as [|c a IH]; intros prev.
  - change (sub_scan name repl prev 0 rest = sub_scan name repl prev 0 rest). done.
  - change (sub_scan name repl prev (S (String.length a)) (String c (a +:+ rest))
            = sub_scan name repl (last_char (Some c) a) 0 rest).
    cbn [sub_scan]. apply IH.
Qed.

Lemma sub_scan_word_rest name repl w prev rest :
  name ≠ EmptyString → all_word w = true → wordy prev = true →
  sub_scan name repl prev 0 (w +:+ rest)
  = w +:+ sub_scan name repl (last_char prev w) 0 rest.
Proof.
  intros Hne. revert prev. induction w as [|c w IH]; intros prev Hw Hprev; [done|].
  simpl in Hw. apply andb_true_iff in Hw as [Hc Hw].
  change (sub_scan name repl prev 0 (String c (w +:+ rest))
          = String c (w +:+ sub_scan name repl (last_char (Some c) w) 0 rest)).
  assert (word_match name prev (String c (w +:+ rest)) = false) as Hm.
  { unfold word_match. destruct (strip_prefix name _); [|done].
    unfold word_boundary. fold (wordy prev). rewrite Hprev. simpl. by rewrite Hc. }
  cbn [sub_scan]. rewrite Hm. by rewrite IH.
Qed.

Lemma sub_scan_end name repl prev :
  name ≠ EmptyString → sub_scan name repl prev 0 EmptyString = EmptyString.
Proof. intros Hne. simpl. unfold word_match. by rewrite strip_prefix_empty. Qed.

Lemma sub_scan_non_word name repl prev c s :
  is_identifier name → is_word_char c = false →
  sub_scan name repl prev 0 (String c s) = String c (sub_scan name repl (Some c) 0 s).
Proof.
  intros [Hne Hw] Hc. cbn [sub_scan].
  assert (word_match name prev (String c s) = false) as ->; [|done].
  unfold word_match. destruct name as [|a name]; [done|].
  simpl. case_decide as Hac; [|done]. subst a.
  simpl in Hw. by rewrite Hc in Hw.
Qed.

Lemma head_char_all_word s :
  all_word s = true → s ≠ EmptyString → wordy (head_char s) = true.
Proof. destruct s as [|c s]; [done|]. simpl. by intros [? _]%andb_true_iff. Qed.

Lemma head_char_app a b :
  a ≠ EmptyString → head_char (a +:+ b) = head_char a.
Proof. by destruct a. Qed.

Lemma sub_scan_word name repl prev w rest :
  is_identifier name →
  wordy prev = false → w ≠ EmptyString → all_word w = true →
  wordy (head_char rest) = false →
  sub_scan name repl prev 0 (w +:+ rest)
  = (if decide (w = name) then repl else w)
    +:+ sub_scan name repl (last_char prev w) 0 rest.
Proof.
  intros Hid Hprev Hne Hw Hrest.
  pose proof (last_char_identifier prev name Hid) as Hlast.
  destruct Hid as [Hname Hnw].
  destruct w as [|c w]; [done|].
  pose proof Hw as Hw0. simpl in Hw. apply andb_true_iff in Hw as [Hc Hw].
  change (String c w +:+ rest) with (String c (w +:+ rest)).
  destruct (decide (String c w = name)) as [<-|Hdiff].
  - assert (word_match (String c w) prev (String c (w +:+ rest)) = true) as Hm.
    { unfold word_match.
      change (String c (w +:+ rest)) with (String c w +:+ rest).
      rewrite strip_prefix_app. unfold word_boundary.
      fold (wordy prev) (wordy (last_char prev (String c w))) (wordy (head_char rest)).
      rewrite Hprev, Hlast, Hrest. simpl. by rewrite Hc. }
    cbn [sub_scan]. rewrite Hm. by rewrite sub_scan_skip.
  - assert (word_match name prev (String c (w +:+ rest)) = false) as Hm.
    { unfold word_match.
      change (String c (w +:+ rest)) with (String c w +:+ rest).
      destruct (strip_prefix name (String c w +:+ rest)) as [r|] eqn:E; [|done].
      apply strip_prefix_app_cases in E as [(w' & Hw' & ->)|(n' & Hn & Hn' & E)].
      - unfold word_boundary at 2.
        fold (wordy (last_char prev name)). rewrite Hlast.
        destruct w' as [|c' w'].
        + destruct Hdiff. by rewrite Hw', string_app_empty_r.
        + rewrite Hw', all_word_app in Hw0. apply andb_true_iff in Hw0 as [_ Hw0].
          simpl in Hw0. apply andb_true_iff in Hw0 as [Hc' _].
          change (head_char (String c' w' +:+ rest)) with (Some c').
          simpl. rewrite Hc'. by rewrite andb_false_r.
      - rewrite Hn, all_word_app in Hnw. apply andb_true_iff in Hnw as [_ Hn'w].
        destruct n' as [|a n']; [done|]. simpl in Hn'w.
        apply andb_true_iff in Hn'w as [Ha _].
        destruct rest as [|b rest]; [done|]. simpl in E.
        case_decide as Hab; [|done]. subst b. simpl in Hrest. congruence. }
    cbn [sub_scan]. rewrite Hm.
    change (String c w +:+ sub_scan name repl (last_char prev (String c w)) 0 rest)
      with (String c (w +:+ sub_scan name repl (last_char (Some c) w) 0 rest)).
    f_equal. by apply sub_scan_word_rest.
Qed.

(** X17.  Substituting a macro whose name is an identifier replaces
    exactly the whole words equal to the name.  The substitution goes through
    the text from left to right: a character that is not a word character is
    copied; a maximal run of word characters (one that does not follow a word
    character and is not followed by one) is replaced by the replacement text
    when it is the name, and copied otherwise; at the end of the text
    nothing is added. *)
Theorem macro_replaces_whole_words (name repl : string) :
  is_identifier name →
  (∀ prev, sub_scan name repl prev 0 EmptyString = EmptyString) ∧
  (∀ prev c s, is_word_char c = false →
     sub_scan name repl prev 0 (String c s)
     = String c (sub_scan name repl (Some c) 0 s)) ∧
  (∀ prev w rest,
     wordy prev = false → w ≠ EmptyString → all_word w = true →
     wordy (head_char rest) = false →
     sub_scan name repl prev 0 (w +:+ rest)
     = (if decide (w = name) then repl else w)
       +:+ sub_scan name repl (last_char prev w) 0 rest).
Proof.
  intros Hid. split_and!.
  - intros prev. apply sub_scan_end, Hid.
  - intros prev c s Hc. by apply sub_scan_non_word.
  - intros prev w rest. by apply sub_scan_word.
Qed.

Lemma macro_replaces_whole_words_witness :
  (∀ prev, sub_scan "MAXLEN" "100" prev 0 EmptyString = EmptyString) ∧
  (∀ prev c s, is_word_char c = false →
     sub_scan "MAXLEN" "100" prev 0 (String c s)
     = String c (sub_scan "MAXLEN" "100" (Some c) 0 s)) ∧
  (∀ prev w rest,
     wordy prev = false → w ≠ EmptyString → all_word w = true →
     wordy (head_char rest) = false →
     sub_scan "MAXLEN" "100" prev 0 (w +:+ rest)
     = (if decide (w = "MAXLEN") then "100" else w)
       +:+ sub_scan "MAXLEN" "100" (last_char prev w) 0 rest).
Proof.
  apply (macro_replaces_whole_words "MAXLEN" "100").
  split; [discriminate|reflexivity].
Defined.

(** ** The configuration calls *)

Lemma macros_set_names d n v :
  (macros_set d n v).*1 = if decide (n ∈ d.*1) then d.*1 else d.*1 ++ [n].
Proof.
  induction d as [|[k w] d IH].
  - simpl. by destruct (decide (n ∈ [])) as [?%elem_of_nil|].
  - cbn [macros_set]. destruct (decide (k = n)) as [->|Hne]; rewrite !fmap_cons; cbn [fst].
    + rewrite decide_True; [done|left].
    + rewrite IH. destruct (decide (n ∈ d.*1)) as [Hin|Hnin].
      * rewrite decide_True; [done|by right].
      * rewrite decide_False; [done|].
        intros [?|?]%elem_of_cons; [by subst|done].
Qed.

Lemma elem_of_macros_set d n v n' w :
  NoDup d.*1 →
  (n', w) ∈ macros_set d n v ↔ (n' = n ∧ w = v) ∨ (n' ≠ n ∧ (n', w) ∈ d).
Proof.
  induction d as [|[k u] d IH]; simpl; intros Hnd.
  - rewrite list_elem_of_singleton. split.
    + intros [= -> ->]. by left.
    + intros [[-> ->]|[_ ?%elem_of_nil]]; done.
  - apply NoDup_cons in Hnd as [Hk Hnd].
    destruct (decide (k = n)) as [->|Hne].
    + rewrite !elem_of_cons. split.
      * intros [[= -> ->]|Hin]; [by left|].
        right. split; [|by right]. intros ->. apply Hk.
        apply list_elem_of_fmap. by exists (n, w).
      * intros [[-> ->]|[Hn' [[= -> ->]|Hin]]]; [by left|done|by right].
    + rewrite !elem_of_cons, IH by done. split.
      * intros [[= -> ->]|[?|[? ?]]]; [|by left|]; right; (split; [done|]); [by left|by right].
      * intros [?|[? [[= -> ->]|?]]]; [right; by left|by left|right; by right].
Qed.

(** X18.  [define_macro] gives the name its new value where the name
    already stands: a name defined before keeps its place in the order of
    substitution, a new name goes last, and in both cases the other macros
    are untouched and the name has the new value and no other. *)
Theorem define_macro_in_place (n v : string) (st : CPreprocessor) :
  NoDup (macros st).*1 →
  let st' := define_macro n v st in
  (macros st').*1 = (if decide (n ∈ (macros st).*1) then (macros st).*1
                     else (macros st).*1 ++ [n]) ∧
  NoDup (macros st').*1 ∧
  (∀ n' w, (n', w) ∈ macros st' ↔ (n' = n ∧ w = v) ∨ (n' ≠ n ∧ (n', w) ∈ macros st)) ∧
  include_paths st' = include_paths st ∧
  processed_includes st' = processed_includes st.
Proof.
  intros Hnd st'. unfold st', define_macro. simpl. split_and!; [| | |done|done].
  - apply macros_set_names.
  - rewrite macros_set_names. case_decide as Hin; [done|].
    apply NoDup_app. split_and!; [done| |apply NoDup_singleton].
    intros x Hx ->%list_elem_of_singleton. done.
  - intros n' w. by apply elem_of_macros_set.
Qed.

Lemma define_macro_in_place_witness :
  let st := define_macro "B" "2" (define_macro "A" "1" new_preprocessor) in
  let st' := define_macro "A" "B" st in
  (macros st').*1 = (if decide ("A" ∈ (macros st).*1) then (macros st).*1
                     else (macros st).*1 ++ ["A"]) ∧
  NoDup (macros st').*1 ∧
  (∀ n' w, (n', w) ∈ macros st' ↔
           (n' = "A" ∧ w = "B") ∨ (n' ≠ "A" ∧ (n', w) ∈ macros st)) ∧
  include_paths st' = include_paths st ∧
  processed_includes st' = processed_includes st.
Proof.
  intros st. apply (define_macro_in_place "A" "B" st).
  vm_compute. repeat constructor; set_solver.
Defined.

(** Redefined in place: [A] is still substituted before [B], so the [B]
    that its new value brings in is expanded. *)
Example redefined_macro_run :
  let st := define_macro "A" "B" (define_macro "B" "2" (define_macro "A" "1" new_preprocessor)) in
  (_expand_macros plain_template_only "A + B" st).1 = Ok "2 + 2".
Proof. vm_compute. reflexivity. Qed.

(** ** Include expansion comes to an end *)

Lemma bounded_ret {A : Type} known k (a : A) : bounded known k (ret a).
Proof. by intros st _. Qed.

Lemma bounded_bind {A B : Type} known n (m : M A) (k : A → M B) :
  bounded known n m → keeps_processed m → (∀ a, bounded known n (k a)) →
  bounded known n (bind m k).
Proof.
  intros Hm Hkeep Hk st Hst. unfold bind.
  specialize (Hm st Hst). specialize (Hkeep st).
  destruct (m st) as [[a|e|] st']; simpl in *; [|done|done].
  apply Hk. eapply Nat.le_lt_trans; [|exact Hst]. apply subseteq_size. set_solver.
Qed.

Lemma bounded_attempt {A : Type} known n (m : M A) :
  bounded known n m → bounded known n (attempt m).
Proof.
  intros Hm st Hst. unfold attempt. specialize (Hm st Hst).
  by destruct (m st) as [[a|e|] st'].
Qed.

Section Termination.

Variable fs : string → fs_entry.
Variable path_join : string → string → string.
Variable re_template : string → option (string → string).
Variable known : gset string.

Lemma bounded_read_file n path : bounded known n (read_file fs path).
Proof. intros st _. unfold read_file. by destruct (fs path). Qed.

Lemma bounded_include_scan n repl skip s :
  (∀ spec w, spec ∈ include_specs skip s → bounded known n (repl spec w)) →
  (∀ spec w, keeps_processed (repl spec w)) →
  bounded known n (include_scan repl skip s).
Proof.
  intros Hrepl Hkeep. revert skip Hrepl.
  induction s as [|c s IH]; intros skip Hrepl; [apply bounded_ret|].
  cbn [include_scan]. cbn [include_specs] in Hrepl.
  destruct skip as [|k]; [|by apply IH].
  destruct (match_include (String c s)) as [[spec len]|].
  - apply bounded_bind; [apply Hrepl; left|apply Hkeep|]. intros r.
    apply bounded_bind.
    + apply IH. intros spec' w Hin. apply Hrepl. by right.
    + by apply keeps_include_scan.
    + intros rest. apply bounded_ret.
  - apply bounded_bind; [by apply IH|by apply keeps_include_scan|].
    intros rest. apply bounded_ret.
Qed.

(** Every include spec in the content of a readable file is known. *)
Hypothesis files_known :
  ∀ p content spec, fs p = File content →
    spec ∈ include_specs 0 content → spec ∈ known.

Lemma bounded_search_known n rec include_path whole dirs :
  (∀ s f, (∀ spec, spec ∈ include_specs 0 s → spec ∈ known) → bounded known n (rec s f)) →
  (∀ s f, keeps_processed (rec s f)) →
  bounded known n (search_include fs path_join rec include_path whole dirs).
Proof.
  intros Hrec Hkeep. induction dirs as [|d dirs IH]; simpl.
  - by intros st _.
  - apply bounded_bind;
      [intros st _; unfold path_exists; by destruct (fs _)
      |apply keeps_path_exists; exact re_template|].
    intros [|]; [|done].
    destruct (fs (path_join d include_path)) as [| |content|] eqn:E.
    + apply bounded_bind.
      * apply bounded_attempt. intros st _. unfold bind, read_file. by rewrite E.
      * apply keeps_attempt. intros st. unfold bind, read_file. by rewrite E.
      * intros [e|text]; [|apply bounded_ret].
        apply bounded_bind; [by intros st _|apply keeps_log|]. by intros _.
    + apply bounded_bind.
      * apply bounded_attempt. intros st _. unfold bind, read_file. by rewrite E.
      * apply keeps_attempt. intros st. unfold bind, read_file. by rewrite E.
      * intros [e|text]; [|apply bounded_ret].
        apply bounded_bind; [by intros st _|apply keeps_log|]. by intros _.
    + apply bounded_bind.
      * apply bounded_attempt. intros st Hst. unfold bind, read_file. rewrite E.
        simpl. apply Hrec; [|done]. intros spec Hspec. by eapply files_known.
      * apply keeps_attempt, keeps_bind; [apply keeps_read_file; exact re_template|].
        intros c. apply Hkeep.
      * intros [e|text]; [|apply bounded_ret].
        apply bounded_bind; [by intros st _|apply keeps_log|]. by intros _.
    + apply bounded_bind.
      * apply bounded_attempt. intros st _. unfold bind, read_file. by rewrite E.
      * apply keeps_attempt. intros st. unfold bind, read_file. by rewrite E.
      * intros [e|text]; [|apply bounded_ret].
        apply bounded_bind; [by intros st _|apply keeps_log|]. by intros _.
Qed.

Lemma bounded_process_source fuel :
  ∀ source file,
    (∀ spec, spec ∈ include_specs 0 source → spec ∈ known) →
    bounded known fuel (process_source fs path_join re_template fuel source file).
Proof.
  induction fuel as [|fuel IH]; intros source file Hknown; [intros st Hst; lia|].
  simpl. apply bounded_bind.
  - unfold _process_includes. apply bounded_include_scan.
    + intros spec w Hspec st Hst. unfold replace_include, bind, get_state.
      case_decide as Hseen; [done|]. simpl.
      apply (bounded_search_known fuel (process_source fs path_join re_template fuel)).
      * intros s f Hs. by apply IH.
      * intros s f. apply keeps_process_source.
      * simpl.
        assert (size (known ∖ (processed_includes st ∪ {[spec]}))
                < size (known ∖ processed_includes st)); [|lia].
        apply subset_size, strict_spec_alt. split; [set_solver|].
        intros Heq. assert (spec ∈ known ∖ processed_includes st) as Hx.
        { apply elem_of_difference. split; [by apply Hknown|done]. }
        rewrite <- Heq in Hx. set_solver.
    + intros spec w. apply keeps_replace_include. intros s f. apply keeps_process_source.
  - unfold _process_includes. apply keeps_include_scan. intros p w.
    apply keeps_replace_include. intros s f. apply keeps_process_source.
  - intros s1. apply bounded_bind.
    + intros st _. unfold _expand_macros. simpl.
      generalize s1. induction (macros st) as [|[n v] ms IHm]; intros s2; simpl; [done|].
      unfold re_sub_word at 1. by destruct (re_template v).
    + apply keeps_expand_macros.
    + intros s2. apply bounded_ret.
Qed.

End Termination.

Lemma refines_refl {A : Type} (m : M A) : refines m m.
Proof. by intros st _. Qed.

Lemma refines_bind {A B : Type} (m m' : M A) (k k' : A → M B) :
  refines m m' → (∀ a, refines (k a) (k' a)) → refines (bind m k) (bind m' k').
Proof.
  intros Hm Hk st Hrun. unfold bind in *.
  assert ((m st).1 ≠ OutOfFuel) as Hm1.
  { intros Hoof. destruct (m st) as [[a|e|] st1]; simpl in *; done. }
  rewrite (Hm st Hm1). destruct (m st) as [[a|e|] st1]; [|done|done].
  by apply Hk.
Qed.

Lemma refines_attempt {A : Type} (m m' : M A) :
  refines m m' → refines (attempt m) (attempt m').
Proof.
  intros Hm st Hrun. unfold attempt in *.
  assert ((m st).1 ≠ OutOfFuel) as Hm1.
  { intros Hoof. destruct (m st) as [[a|e|] st1]; simpl in *; done. }
  by rewrite (Hm st Hm1).
Qed.

Section FuelIndependence.

Variable fs : string → fs_entry.
Variable path_join : string → string → string.
Variable re_template : string → option (string → string).

Lemma refines_search_include rec rec' include_path whole dirs :
  (∀ s f, refines (rec s f) (rec' s f)) →
  refines (search_include fs path_join rec include_path whole dirs)
          (search_include fs path_join rec' include_path whole dirs).
Proof.
  intros Hrec. induction dirs as [|d dirs IH]; simpl; [apply refines_refl|].
  apply refines_bind; [apply refines_refl|]. intros [|]; [|done].
  apply refines_bind.
  - apply refines_attempt, refines_bind; [apply refines_refl|]. intros c. apply Hrec.
  - intros [e|text]; [|apply refines_refl].
    apply refines_bind; [apply refines_refl|]. by intros _.
Qed.

Lemma refines_replace_include rec rec' include_path whole :
  (∀ s f, refines (rec s f) (rec' s f)) →
  refines (replace_include fs path_join rec include_path whole)
          (replace_include fs path_join rec' include_path whole).
Proof.
  intros Hrec. unfold replace_include. apply refines_bind; [apply refines_refl|].
  intros st. case_decide; [apply refines_refl|].
  apply refines_bind; [apply refines_refl|]. intros _. by apply refines_search_include.
Qed.

Lemma refines_include_scan repl repl' skip s :
  (∀ p w, refines (repl p w) (repl' p w)) →
  refines (include_scan repl skip s) (include_scan repl' skip s).
Proof.
  intros Hrepl. revert skip. induction s as [|c s IH]; intros skip; simpl.
  - apply refines_refl.
  - destruct skip as [|k]; [|apply IH].
    destruct (match_include (String c s)) as [[spec len]|].
    + apply refines_bind; [apply Hrepl|]. intros r.
      apply refines_bind; [apply IH|]. intros rest. apply refines_refl.
    + apply refines_bind; [apply IH|]. intros rest. apply refines_refl.
Qed.

Lemma refines_process_source_S fuel :
  ∀ source file,
    refines (process_source fs path_join re_template fuel source file)
            (process_source fs path_join re_template (S fuel) source file).
Proof.
  induction fuel as [|fuel IH]; intros source file; [by intros st Hrun|].
  change (refines
    (bind (_process_includes fs path_join (process_source fs path_join re_template fuel)
             source file)
          (λ source, bind (_expand_macros re_template source) _process_conditionals))
    (bind (_process_includes fs path_join (process_source fs path_join re_template (S fuel))
             source file)
          (λ source, bind (_expand_macros re_template source) _process_conditionals))).
  apply refines_bind; [|intros s1; apply refines_refl].
  unfold _process_includes. apply refines_include_scan. intros p w.
  by apply refines_replace_include.
Qed.

Lemma refines_process_source fuel fuel' source file :
  fuel ≤ fuel' →
  refines (process_source fs path_join re_template fuel source file)
          (process_source fs path_join re_template fuel' source file).
Proof.
  intros Hle. induction Hle as [|fuel' Hle IH]; [apply refines_refl|].
  intros st Hrun. rewrite <- (IH st Hrun).
  apply refines_process_source_S. by rewrite (IH st Hrun).
Qed.

End FuelIndependence.

(** X19.  Include expansion comes to an end, also for a header that
    includes itself and for headers that include each other.  Let [known] be
    a finite set that holds every include spec met in the text and in the
    content of every readable file.  Then [process_source] returns or raises
    (it does not recurse without end), with one and the same result for every
    recursion bound above the number of known specs not yet on record: the
    nesting of includes is never deeper than that number. *)
Theorem include_expansion_terminates
    (fs : string → fs_entry) (path_join : string → string → string)
    (re_template : string → option (string → string))
    (known : gset string) (source current_file : string) (st : CPreprocessor) :
  (∀ spec, spec ∈ include_specs 0 source → spec ∈ known) →
  (∀ p content spec, fs p = File content →
     spec ∈ include_specs 0 content → spec ∈ known) →
  ∃ result st',
    result ≠ OutOfFuel ∧
    ∀ fuel, size (known ∖ processed_includes st) < fuel →
      process_source fs path_join re_template fuel source current_file st
        = (result, st').
Proof.
  intros Hsource Hfiles.
  set (fuel0 := S (size (known ∖ processed_includes st))).
  pose proof (bounded_process_source fs path_join re_template known Hfiles fuel0
                source current_file Hsource st) as Hrun.
  destruct (process_source fs path_join re_template fuel0 source current_file st)
    as [result st'] eqn:E.
  exists result, st'. split; [apply Hrun; unfold fuel0; lia|].
  intros fuel Hfuel. rewrite <- E.
  apply (refines_process_source fs path_join re_template fuel0 fuel);
    [unfold fuel0; lia|].
  rewrite E. apply Hrun. unfold fuel0. lia.
Qed.

Lemma include_expansion_terminates_witness :
  ∃ result st',
    result ≠ OutOfFuel ∧
    ∀ fuel, size (({["defs.h"]} : gset string)
                  ∖ processed_includes (add_include_path "inc" new_preprocessor)) < fuel →
      process_source demo_fs demo_join plain_template_only fuel demo_source "main.c"
        (add_include_path "inc" new_preprocessor) = (result, st').
Proof.
  apply (include_expansion_terminates demo_fs demo_join plain_template_only
           {["defs.h"]} demo_source "main.c").
  - intros spec Hspec. vm_compute in Hspec.
    apply elem_of_cons in Hspec as [->|Hspec]; [set_solver|].
    apply list_elem_of_singleton in Hspec as ->. set_solver.
  - intros p content spec. unfold demo_fs. case_decide; [|done].
    intros [= <-] Hspec. vm_compute in Hspec.
    apply list_elem_of_singleton in Hspec as ->. set_solver.
Defined.

(** ** Queries by kind and by scope *)

(** X20.  After [add_symbol] of a symbol under a new name, the symbol is
    listed last by the queries for its own kind and its own scope, and the
    queries for every other kind and scope answer as before; after
    [add_symbol] under a name that is taken, every query answers as before.
    Every symbol a query returns has the kind (the scope) asked for and is
    one of [get_all_symbols]. *)
Theorem queries_after_add_symbol (t : SymbolTable) (symbol : Symbol) (k sc : string) :
  let t' := add_symbol t symbol in
  let stored := bool_decide (get_symbol t (name symbol) = None) in
  get_symbols_by_kind t' k =
    get_symbols_by_kind t k
    ++ (if stored && bool_decide (kind symbol = k) then [symbol] else []) ∧
  get_symbols_by_scope t' sc =
    get_symbols_by_scope t sc
    ++ (if stored && bool_decide (scope symbol = sc) then [symbol] else []) ∧
  (∀ s, s ∈ get_symbols_by_kind t' k ↔ s ∈ get_all_symbols t' ∧ kind s = k) ∧
  (∀ s, s ∈ get_symbols_by_scope t' sc ↔ s ∈ get_all_symbols t' ∧ scope s = sc).
Proof.
  intros t' stored.
  assert (get_all_symbols t' = get_all_symbols t ++ (if stored then [symbol] else []))
    as Hall.
  { unfold t', stored, get_all_symbols, add_symbol, get_symbol.
    destruct (symbols_get (symbols t) (name symbol)) eqn:E; simpl.
    - by rewrite app_nil_r.
    - by rewrite symbols_set_new, fmap_app. }
  unfold get_symbols_by_kind, get_symbols_by_scope.
  fold (get_all_symbols t') (get_all_symbols t). rewrite Hall. split_and!.
  - rewrite filter_app. f_equal. destruct stored; [|done]. simpl.
    rewrite filter_cons, filter_nil. by case_bool_decide; [rewrite decide_True|rewrite decide_False].
  - rewrite filter_app. f_equal. destruct stored; [|done]. simpl.
    rewrite filter_cons, filter_nil. by case_bool_decide; [rewrite decide_True|rewrite decide_False].
  - intros s. rewrite list_elem_of_filter. tauto.
  - intros s. rewrite list_elem_of_filter. tauto.
Qed.

(** ** The include path *)

Lemma add_include_path_elem (path : string) (st : CPreprocessor) (d : string) :
  d ∈ include_paths (add_include_path path st) ↔ d ∈ include_paths st ∨ d = path.
Proof.
  unfold add_include_path. destruct (decide (path ∈ include_paths st)); simpl.
  - split; [tauto | by intros [?| ->]].
  - rewrite elem_of_app, list_elem_of_singleton. tauto.
Qed.

Lemma add_include_paths_elem (paths : list string) (st : CPreprocessor) (d : string) :
  d ∈ include_paths (foldl (λ st p, add_include_path p st) st paths)
  ↔ d ∈ include_paths st ∨ d ∈ paths.
Proof.
  revert st. induction paths as [|p paths IH]; intros st; simpl.
  - rewrite elem_of_nil. tauto.
  - rewrite IH, add_include_path_elem, elem_of_cons. tauto.
Qed.

Lemma add_include_paths_prefix (paths : list string) (st : CPreprocessor) :
  ∃ later, include_paths (foldl (λ st p, add_include_path p st) st paths)
           = include_paths st ++ later.
Proof.
  revert st. induction paths as [|p paths IH]; intros st; simpl.
  - exists []. by rewrite app_nil_r.
  - destruct (IH (add_include_path p st)) as [later ->].
    unfold add_include_path. destruct (decide (p ∈ include_paths st)); simpl.
    + by exists later.
    + exists (p :: later). by rewrite <- app_assoc.
Qed.

Lemma add_include_paths_NoDup (paths : list string) (st : CPreprocessor) :
  NoDup (include_paths st) →
  NoDup (include_paths (foldl (λ st p, add_include_path p st) st paths)).
Proof.
  revert st. induction paths as [|p paths IH]; intros st Hnd; simpl; [done|].
  apply IH. unfold add_include_path.
  destruct (decide (p ∈ include_paths st)); simpl; [done|].
  apply NoDup_app. split_and!; [done| |apply NoDup_singleton].
  intros x Hx ->%list_elem_of_singleton. done.
Qed.

Lemma add_include_paths_frame (paths : list string) (st : CPreprocessor) :
  let st' := foldl (λ st p, add_include_path p st) st paths in
  macros st' = macros st ∧ processed_includes st' = processed_includes st ∧
  log st' = log st.
Proof.
  revert st. induction paths as [|p paths IH]; intros st; simpl; [done|].
  destruct (IH (add_include_path p st)) as (-> & -> & ->).
  unfold add_include_path. by destruct (decide (p ∈ include_paths st)).
Qed.

(** X21.  After any sequence of [add_include_path] calls on a new
    preprocessor, the include path holds each directory that was added
    once, in the order of the first additions: the directories that stand
    ahead of a directory [dir] are those the calls before the first
    [add_include_path dir] had left, so adding a directory again does not
    move it.  The macros, the record of includes and the log are not
    touched. *)
Theorem include_path_first_addition_order (paths : list string) :
  let configure := foldl (λ st p, add_include_path p st) new_preprocessor in
  NoDup (include_paths (configure paths)) ∧
  (∀ d, d ∈ include_paths (configure paths) ↔ d ∈ paths) ∧
  (∀ before dir after, paths = before ++ dir :: after → dir ∉ before →
     ∃ later, include_paths (configure paths)
              = include_paths (configure before) ++ dir :: later) ∧
  macros (configure paths) = [] ∧
  processed_includes (configure paths) = ∅ ∧
  log (configure paths) = [].
Proof.
  intros configure. unfold configure. split_and!.
  - apply add_include_paths_NoDup. simpl. apply NoDup_nil_2.
  - intros d. rewrite add_include_paths_elem. simpl. rewrite elem_of_nil. tauto.
  - intros before dir after -> Hdir. rewrite foldl_app. simpl.
    set (st := foldl _ new_preprocessor before).
    destruct (add_include_paths_prefix after (add_include_path dir st)) as [later ->].
    assert (dir ∉ include_paths st) as Hnew.
    { unfold st. rewrite add_include_paths_elem. simpl. rewrite elem_of_nil. tauto. }
    unfold add_include_path. rewrite decide_False by done. simpl.
    exists later. by rewrite <- app_assoc.
  - by destruct (add_include_paths_frame paths new_preprocessor) as (-> & _ & _).
  - by destruct (add_include_paths_frame paths new_preprocessor) as (_ & -> & _).
  - by destruct (add_include_paths_frame paths new_preprocessor) as (_ & _ & ->).
Qed.
